(** * XRotor aerodynamic section model: [xrotor/model.py]

    A shallow embedding of class [Section] of [src/xrotor/model.py]: the
    closed-form lift/drag coefficient model ([cl_lin], [delta_cl_nl], [cl],
    [cd_lin], [delta_cd_nl], [cd]), its constructor, and the polar-fitting
    routine [fit_polar].

    Modelling conventions.
    - Python floats and NumPy float64 values are idealised as the real
      numbers of the Standard Library: rounding and overflow are not
      modelled.
    - A division whose divisor is not a constant is [pydiv]: it raises
      [ZeroDivisionError] on a zero divisor, as Python's float division
      does.  (On NumPy scalars the same division yields inf or nan with a
      warning; both lie outside the real numbers and are represented by
      the same outcome.)
    - A method of [Section] is a computation over the object [self]: it
      receives the object, returns a result or raises, and hands back the
      object it leaves behind.
    - [scipy.optimize.minimize] and [scipy.optimize.newton] are external:
      [fit_polar] takes them as parameters. *)

From Stdlib Require Import Reals Lra Lia Bool Arith String List.
From Stdlib Require Import Sorting.Sorted.
Import ListNotations.
Local Open Scope R_scope.

(** ** Exceptions and results *)

Inductive exn : Set :=
| ZeroDivisionError
| IndexError
| ValueError
| RuntimeError.

Inductive result (A : Type) : Type :=
| Ok (a : A)
| Raise (err : exn).

Arguments Ok {A} a.
Arguments Raise {A} err.

Definition rbind {A B : Type} (r : result A) (k : A -> result B) : result B :=
  match r with
  | Ok a => k a
  | Raise err => Raise err
  end.

Declare Scope result_scope.
Delimit Scope result_scope with result.
Notation "x <~ r ;; k" := (rbind r (fun x => k))
  (at level 61, r at next level, right associativity) : result_scope.

(** [x / y] on floats. *)
Definition pydiv (x y : R) : result R :=
  if Req_dec_T y 0 then Raise ZeroDivisionError else Ok (x / y).

(** ** class Section *)

(** The attributes of a [Section] object ([Section] itself is a reserved
    word here, hence the name). *)
Record SectionObj : Type := mkSection {
  a_0 : R;
  dClda : R;
  Cl_max : R;
  Cl_min : R;
  dClda_stall : R;
  dCl_stall : R;
  Cd_min : R;
  Cl_Cd_min : R;
  dCddCl2 : R;
  Cm_const : R;
  M_crit : R;
  Re : R;
  Re_exp : R
}.

(** [**kwargs]: keyword arguments by name. *)
Definition kwargs : Type := list (string * R).

Fixpoint kw_get (k : string) (kw : kwargs) : option R :=
  match kw with
  | [] => None
  | (k', v) :: kw' => if String.eqb k k' then Some v else kw_get k kw'
  end.

(** [0. if len(args) < i + 1 else args[i]] *)
Definition positional (args : list R) (i : nat) : R :=
  if (List.length args <? S i)%nat then 0 else nth i args 0.

(** [0. if k not in kwargs else kwargs[k]] *)
Definition keyword (kw : kwargs) (k : string) : R :=
  match kw_get k kw with
  | None => 0
  | Some v => v
  end.

(** [Section.__init__(self, *args, **kwargs)] *)
Definition __init__ (args : list R) (kw : kwargs) : SectionObj :=
  {| a_0 := positional args 0;
     dClda := positional args 1;
     Cl_max := positional args 2;
     Cl_min := positional args 3;
     dClda_stall := positional args 4;
     dCl_stall := positional args 5;
     Cd_min := positional args 6;
     Cl_Cd_min := positional args 7;
     dCddCl2 := positional args 8;
     Cm_const := keyword kw "Cm_const";
     M_crit := keyword kw "M_crit";
     Re := keyword kw "Re";
     Re_exp := keyword kw "Re_exp" |}.

(** ** Methods as computations over [self] *)

Definition method (A : Type) : Type := SectionObj -> result A * SectionObj.

Definition ret {A : Type} (a : A) : method A := fun self => (Ok a, self).

Definition bind {A B : Type} (m : method A) (k : A -> method B) : method B :=
  fun self =>
    match m self with
    | (Ok a, self') => k a self'
    | (Raise err, self') => (Raise err, self')
    end.

(** Reading an attribute [self.x]. *)
Definition attr (x : SectionObj -> R) : method R := fun self => (Ok (x self), self).

(** An expression that does not touch [self]. *)
Definition lift {A : Type} (r : result A) : method A := fun self => (r, self).

Declare Scope method_scope.
Delimit Scope method_scope with method.
Notation "x <- m ;; k" := (bind m (fun x => k))
  (at level 61, m at next level, right associativity) : method_scope.

(** The value a method call returns, and the object it leaves. *)
Definition returns {A : Type} (m : method A) (self : SectionObj) : result A := fst (m self).
Definition leaves {A : Type} (m : method A) (self : SectionObj) : SectionObj := snd (m self).

Local Open Scope method_scope.

(** [return (alpha - self.a_0) * np.pi / 180. * self.dClda] *)
Definition cl_lin (alpha : R) : method R :=
  a0 <- attr a_0 ;;
  k <- attr dClda ;;
  ret ((alpha - a0) * PI / 180 * k).

(** [cl_lin = self.cl_lin(alpha)]
    [return self.dCl_stall * np.log((1 + np.exp((cl_lin - self.Cl_max) / self.dCl_stall)) /
                                    (1 + np.exp((self.Cl_min - cl_lin) / self.dCl_stall)))] *)
Definition delta_cl_nl (alpha : R) : method R :=
  cl_lin_ <- cl_lin alpha ;;
  w <- attr dCl_stall ;;
  hi <- attr Cl_max ;;
  w1 <- attr dCl_stall ;;
  up <- lift (pydiv (cl_lin_ - hi) w1) ;;
  lo <- attr Cl_min ;;
  w2 <- attr dCl_stall ;;
  dn <- lift (pydiv (lo - cl_lin_) w2) ;;
  q <- lift (pydiv (1 + exp up) (1 + exp dn)) ;;
  ret (w * ln q).

(** [return self.cl_lin(alpha) - (1 - self.dClda_stall / self.dClda) * self.delta_cl_nl(alpha)] *)
Definition cl (alpha : R) : method R :=
  l <- cl_lin alpha ;;
  ks <- attr dClda_stall ;;
  k <- attr dClda ;;
  r <- lift (pydiv ks k) ;;
  d <- delta_cl_nl alpha ;;
  ret (l - (1 - r) * d).

(** [return self.Cd_min + self.dCddCl2 * (self.cl(alpha) - self.Cl_Cd_min) ** 2] *)
Definition cd_lin (alpha : R) : method R :=
  c0 <- attr Cd_min ;;
  k2 <- attr dCddCl2 ;;
  c <- cl alpha ;;
  c1 <- attr Cl_Cd_min ;;
  ret (c0 + k2 * (c - c1) ^ 2).

(** [return 2 * ((1 - self.dClda_stall / self.dClda) * self.delta_cl_nl(alpha) / self.dClda) ** 2] *)
Definition delta_cd_nl (alpha : R) : method R :=
  ks <- attr dClda_stall ;;
  k <- attr dClda ;;
  r <- lift (pydiv ks k) ;;
  d <- delta_cl_nl alpha ;;
  k' <- attr dClda ;;
  q <- lift (pydiv ((1 - r) * d) k') ;;
  ret (2 * q ^ 2).

(** [return self.cd_lin(alpha) + self.delta_cd_nl(alpha)] *)
Definition cd (alpha : R) : method R :=
  x <- cd_lin alpha ;;
  y <- delta_cd_nl alpha ;;
  ret (x + y).

Local Close Scope method_scope.

(** ** NumPy arrays and functions *)

(** A two-dimensional array: [polar.shape = (len rows, ncols)]. *)
Record ndarray : Type := mkArray {
  ncols : nat;
  rows : list (list R)
}.

Definition well_formed (polar : ndarray) : Prop :=
  Forall (fun r => List.length r = ncols polar) (rows polar).

Fixpoint mapM {A B : Type} (g : A -> result B) (l : list A) : result (list B) :=
  match l with
  | [] => Ok []
  | x :: l' =>
      match g x with
      | Ok y => match mapM g l' with
                | Ok ys => Ok (y :: ys)
                | Raise err => Raise err
                end
      | Raise err => Raise err
      end
  end.

(** The entries of column [j], row by row. *)
Definition column_values (polar : ndarray) (j : nat) : list R :=
  map (fun r => nth j r 0) (rows polar).

(** [polar[:, j]] *)
Definition column (polar : ndarray) (j : nat) : result (list R) :=
  if (j <? ncols polar)%nat then Ok (column_values polar j) else Raise IndexError.

(** [polar[i, j]] for a row index taken from an index array. *)
Definition entry (polar : ndarray) (j i : nat) : result R :=
  match nth_error (rows polar) i with
  | Some r => Ok (nth j r 0)
  | None => Raise IndexError
  end.

(** [polar[indices, j]] *)
Definition take (polar : ndarray) (indices : list nat) (j : nat) : result (list R) :=
  if (j <? ncols polar)%nat then mapM (entry polar j) indices else Raise IndexError.

Definition np_ones (n : nat) : list R := repeat 1 n.

Definition np_sum (l : list R) : R := fold_right Rplus 0 l.

(** [np.mean] of a non-empty array (on an empty one NumPy yields nan). *)
Definition np_mean (l : list R) : R := np_sum l / INR (List.length l).

(** Elementwise [u - v] and [u ** 2] on arrays of one length. *)
Definition np_sub (u v : list R) : list R :=
  map (fun p => fst p - snd p) (combine u v).

Definition np_square (u : list R) : list R := map (fun x => x ^ 2) u.

(** A method applied to an array of angles works elementwise. *)
Fixpoint vectorized (m : R -> method R) (alphas : list R) : method (list R) :=
  match alphas with
  | [] => ret []
  | alpha :: rest =>
      bind (m alpha) (fun y => bind (vectorized m rest) (fun ys => ret (y :: ys)))
  end.

(** *** [np.unique(ar, return_index=True)]

    NumPy sorts the array with a stable argsort and keeps every element
    that differs from its predecessor, together with its original index.
    The result of a stable sort does not depend on the sorting algorithm;
    insertion is used here. *)

Fixpoint enumerate_from (i : nat) (l : list R) : list (R * nat) :=
  match l with
  | [] => []
  | x :: l' => (x, i) :: enumerate_from (S i) l'
  end.

(** Insertion in front of the first entry that is not smaller: entries are
    inserted from the last to the first, so equal values keep their order. *)
Fixpoint insert_sorted (p : R * nat) (l : list (R * nat)) : list (R * nat) :=
  match l with
  | [] => [p]
  | q :: l' => if Rle_dec (fst p) (fst q) then p :: q :: l' else q :: insert_sorted p l'
  end.

Definition argsort_stable (l : list R) : list (R * nat) :=
  fold_right insert_sorted [] (enumerate_from 0 l).

(** [mask[1:] = aux[1:] != aux[:-1]] *)
Fixpoint keep_new (prev : R) (l : list (R * nat)) : list (R * nat) :=
  match l with
  | [] => []
  | q :: l' =>
      if Req_dec_T (fst q) prev then keep_new (fst q) l' else q :: keep_new (fst q) l'
  end.

(** [mask[:1] = True] *)
Definition keep_first_of_runs (l : list (R * nat)) : list (R * nat) :=
  match l with
  | [] => []
  | p :: l' => p :: keep_new (fst p) l'
  end.

Definition np_unique (l : list R) : list R * list nat :=
  let kept := keep_first_of_runs (argsort_stable l) in
  (map fst kept, map snd kept).

(** *** [np.interp(x, xp, fp)] for increasing [xp]

    Below the first sample point the result is [fp[0]], at or above the last
    one it is [fp[-1]]; between two sample points it is the value on the
    line through them, and [fp[j]] itself when [x == xp[j]]. *)

Fixpoint interp_from (x x0 f0 : R) (xp fp : list R) : R :=
  match xp, fp with
  | x1 :: xp', f1 :: fp' =>
      if Rlt_dec x x1
      then (if Req_dec_T x0 x then f0 else (f1 - f0) / (x1 - x0) * (x - x0) + f0)
      else interp_from x x1 f1 xp' fp'
  | _, _ => f0
  end.

Definition np_interp (x : R) (xp fp : list R) : result R :=
  match xp, fp with
  | [], _ => Raise ValueError
  | x0 :: xp', f0 :: fp' =>
      if (List.length xp' =? List.length fp')%nat
      then (if Rlt_dec x x0 then Ok f0 else Ok (interp_from x x0 f0 xp' fp'))
      else Raise ValueError
  | _ :: _, [] => Raise ValueError
  end.

(** ** [Section.fit_polar] *)

Local Open Scope result_scope.

(** [def e(x)]: the objective handed to [minimize]; [a], [cl_], [cd_] are
    the first three columns of the polar. *)
Definition e (a cl_ cd_ : list R) (x : list R) : result R :=
  ycl <~ returns (vectorized cl a) (__init__ x []) ;;
  ycd <~ returns (vectorized cd a) (__init__ x []) ;;
  Ok (sqrt (np_mean (np_square (np_sub ycl cl_))) +
      sqrt (np_mean (np_square (np_sub ycd cd_)))).

(** The [bounds] argument of [minimize]. *)
Definition bounds : list (R * R) :=
  [(-10, 10); (1, 20); (0, 3); (-3, 0); (-2, 2); (0.1, 0.3); (0, 0.5); (-1, 1); (0, 1)].

Definition gamma : R := 1.4.

(** [def f(M)] *)
Definition f (cp M : R) : result R :=
  u <~ pydiv 2 (gamma * M ^ 2) ;;
  g <~ pydiv (gamma + 1) (2 * (1 + 0.5 * (gamma - 1) * M ^ 2)) ;;
  Ok (u * (Rpower g (gamma / (1 - gamma)) - 1) - cp).

(** [def df(M)] *)
Definition df (M : R) : result R :=
  u3 <~ pydiv (-4) (gamma * M ^ 3) ;;
  g <~ pydiv (gamma + 1) (2 * (1 + 0.5 * (gamma - 1) * M ^ 2)) ;;
  u2 <~ pydiv 2 (gamma * M ^ 2) ;;
  g' <~ pydiv (gamma + 1) (2 * (1 + 0.5 * (gamma - 1) * M ^ 2)) ;;
  h <~ pydiv (gamma + 1) ((2 * (1 + 0.5 * (gamma - 1) * M ^ 2)) ^ 2) ;;
  Ok (u3 * (Rpower g (gamma / (1 - gamma)) - 1) +
      - u2 * (gamma / (1 - gamma)) * Rpower g' (gamma / (1 - gamma) - 1) * h
        * 2 * (gamma - 1) * M).

(** [a_unique, indices = np.unique(polar[:, 0], return_index=True)]
    [cp = np.interp(0., a_unique, polar[indices, 5])] *)
Definition cp_at_zero (polar : ndarray) : result R :=
  col0 <~ column polar 0 ;;
  fp <~ take polar (snd (np_unique col0)) 5 ;;
  np_interp 0 (fst (np_unique col0)) fp.

Section Fit.

(** [scipy.optimize.minimize(fun, x0, bounds=...)], read at [res.x], and
    [scipy.optimize.newton(func, x0, fprime)], which may raise. *)
Variable minimize : (list R -> result R) -> list R -> list (R * R) -> list R.
Variable newton : (R -> result R) -> R -> (R -> result R) -> result R.

Definition fit_polar (polar : ndarray) : result SectionObj :=
  a <~ column polar 0 ;;
  cl_ <~ column polar 1 ;;
  cd_ <~ column polar 2 ;;
  let res_x := minimize (e a cl_ cd_) (np_ones 9) bounds in
  M_crit_ <~ (if (ncols polar =? 9)%nat
              then cp <~ cp_at_zero polar ;; newton (f cp) 1 df
              else Ok 0.6) ;;
  cm <~ column polar 4 ;;
  Ok (__init__ res_x [("Cm_const"%string, np_mean cm); ("M_crit"%string, M_crit_)]).

End Fit.

Local Close Scope result_scope.

(** ** The coefficient model in closed form

    The curves as the design document writes them, on the reals. *)

Definition linear_cl (s : SectionObj) (alpha : R) : R :=
  (alpha - a_0 s) * PI / 180 * dClda s.

Definition stall_offset_cl (s : SectionObj) (alpha : R) : R :=
  dCl_stall s *
  ln ((1 + exp ((linear_cl s alpha - Cl_max s) / dCl_stall s)) /
      (1 + exp ((Cl_min s - linear_cl s alpha) / dCl_stall s))).

Definition cl_closed (s : SectionObj) (alpha : R) : R :=
  linear_cl s alpha - (1 - dClda_stall s / dClda s) * stall_offset_cl s alpha.

Definition linear_cd (s : SectionObj) (alpha : R) : R :=
  Cd_min s + dCddCl2 s * (cl_closed s alpha - Cl_Cd_min s) ^ 2.

Definition stall_offset_cd (s : SectionObj) (alpha : R) : R :=
  2 * ((1 - dClda_stall s / dClda s) * stall_offset_cl s alpha / dClda s) ^ 2.

Definition cd_closed (s : SectionObj) (alpha : R) : R :=
  linear_cd s alpha + stall_offset_cd s alpha.

(** Root-mean-square error of model values against measured ones. *)
Definition rms_error (model measured : list R) : R :=
  sqrt (np_mean (np_square (np_sub model measured))).

(** The root-mean-square error as the design document words it, written
    without the array operations of the code: the sum over the rows of
    the squared difference between the model's value and the measured
    one, divided by the number of measurements, under a square root. *)
Fixpoint squared_error_sum (model measured : list R) : R :=
  match model, measured with
  | m :: model', t :: measured' => (m - t) * (m - t) + squared_error_sum model' measured'
  | _, _ => 0
  end.

Definition root_mean_square_error (model measured : list R) : R :=
  sqrt (squared_error_sum model measured / INR (List.length measured)).

(** The critical-Mach relation of the design document, with [gamma = 1.4]. *)
Definition f_closed (cp0 M : R) : R :=
  (2 / (gamma * M ^ 2)) *
  (Rpower ((gamma + 1) / (2 * (1 + 0.5 * (gamma - 1) * M ^ 2))) (gamma / (1 - gamma)) - 1) - cp0.

(** The value [df(M)] computes: the derivative of the relation in [M]. *)
Definition df_closed (M : R) : R :=
  (-4 / (gamma * M ^ 3)) *
    (Rpower ((gamma + 1) / (2 * (1 + 0.5 * (gamma - 1) * M ^ 2))) (gamma / (1 - gamma)) - 1) +
  - (2 / (gamma * M ^ 2)) * (gamma / (1 - gamma)) *
    Rpower ((gamma + 1) / (2 * (1 + 0.5 * (gamma - 1) * M ^ 2))) (gamma / (1 - gamma) - 1) *
    ((gamma + 1) / (2 * (1 + 0.5 * (gamma - 1) * M ^ 2)) ^ 2) * 2 * (gamma - 1) * M.

(** [polar[i, 5]], the entry that [fit_polar] reads as the pressure
    coefficient of row [i]. *)
Definition Cp_of_row (polar : ndarray) (i : nat) : R :=
  nth 5 (nth i (rows polar) []) 0.

(** The order of a stable sort: by value, and by index among equal values. *)
Definition before (p q : R * nat) : Prop :=
  fst p < fst q \/ (fst p = fst q /\ (snd p < snd q)%nat).

(** A parameter vector that lies in the box, component by component. *)
Definition within (x : list R) (box : list (R * R)) : Prop :=
  Forall2 (fun v b => fst b <= v <= snd b) x box.

(** A method that hands back the object it received. *)
Definition readonly {A : Type} (m : method A) : Prop :=
  forall self, leaves m self = self.

(** A call that returns [a] and leaves the object as it was. *)
Definition yields {A : Type} (m : method A) (self : SectionObj) (a : A) : Prop :=
  m self = (Ok a, self).

(** Two objects with the same thirteen parameters. *)
Definition same_parameters (s s' : SectionObj) : Prop :=
  a_0 s = a_0 s' /\ dClda s = dClda s' /\ Cl_max s = Cl_max s' /\
  Cl_min s = Cl_min s' /\ dClda_stall s = dClda_stall s' /\
  dCl_stall s = dCl_stall s' /\ Cd_min s = Cd_min s' /\
  Cl_Cd_min s = Cl_Cd_min s' /\ dCddCl2 s = dCddCl2 s' /\
  Cm_const s = Cm_const s' /\ M_crit s = M_crit s' /\
  Re s = Re s' /\ Re_exp s = Re_exp s'.

(** The parameter vector [res.x] that [fit_polar] obtains for a polar. *)
Definition fitted
    (minimize : (list R -> result R) -> list R -> list (R * R) -> list R)
    (polar : ndarray) : list R :=
  minimize (e (column_values polar 0) (column_values polar 1) (column_values polar 2))
           (np_ones 9) bounds.

(** ** Sample inputs *)

(** A Section with lift slope 6 per radian, stall at +-1.2 and blend width 0.2. *)
Definition sample_section : SectionObj :=
  __init__ [0; 6; 1.2; -1.2; 0.5; 0.2; 0.01; 0.1; 0.02] [].

(** A Section whose post-stall slope equals its linear slope. *)
Definition unstalled_section : SectionObj :=
  __init__ [0; 6; 1.2; -1.2; 6; 0.2] [].

(** Equal slopes again, with the blend width left at its default, 0. *)
Definition zero_width_section : SectionObj := __init__ [0; 1; 0; 0; 1] [].

(** The five-row polar of the design document: alpha, cl, cd, cm. *)
Definition four_column_polar : ndarray :=
  mkArray 4 [[-5; -0.3; 0.01; 0];
             [0; 0.1; 0.008; 0];
             [5; 0.6; 0.012; 0];
             [10; 0.95; 0.03; 0];
             [15; 0.9; 0.06; 0]].

(** Two rows of five columns; the moment coefficient -0.05 stands fourth. *)
Definition five_column_polar : ndarray :=
  mkArray 5 [[0; 0.1; 0.008; -0.05; 0.2];
             [5; 0.6; 0.012; -0.05; 0.4]].

(** An optimiser that returns its start point, and a root-finder that
    returns its first guess: stand-ins for running the theorems below. *)
Definition start_point_minimize
    (fn : list R -> result R) (x0 : list R) (box : list (R * R)) : list R := x0.

Definition first_guess_newton
    (fn : R -> result R) (x0 : R) (fprime : R -> result R) : result R := Ok x0.

(** Three rows of nine columns; the angle 0 occurs in the first and in the
    third row, with the pressure entries -1 and -3. *)
Definition nine_column_polar : ndarray :=
  mkArray 9 [[0; 0.1; 0.008; 0.004; -0.05; -1; 0.3; 0.9; 1];
             [5; 0.6; 0.012; 0.006; -0.05; -2; 0.3; 0.5; 1];
             [0; 0.2; 0.009; 0.004; -0.05; -3; 0.3; 0.9; 1]].

(** * Properties *)

(** ** Read-only methods *)

Lemma readonly_ret {A : Type} (a : A) : readonly (ret a).
Proof. intro self. reflexivity. Qed.

Lemma readonly_attr (x : SectionObj -> R) : readonly (attr x).
Proof. intro self. reflexivity. Qed.

Lemma readonly_lift {A : Type} (r : result A) : readonly (lift r).
Proof. intro self. reflexivity. Qed.

Lemma readonly_bind {A B : Type} (m : method A) (k : A -> method B) :
  readonly m -> (forall a, readonly (k a)) -> readonly (bind m k).
Proof.
  intros Hm Hk self. unfold leaves, bind.
  specialize (Hm self). unfold leaves in Hm.
  destruct (m self) as [[a | err] self']; simpl in Hm; subst self'.
  - apply Hk.
  - reflexivity.
Qed.

Create HintDb readonly.
#[export] Hint Resolve readonly_ret readonly_attr readonly_lift : readonly.

Ltac readonly_steps :=
  repeat (apply readonly_bind; [ | intro ]); auto with readonly.

Lemma readonly_cl_lin alpha : readonly (cl_lin alpha).
Proof. unfold cl_lin. readonly_steps. Qed.

#[export] Hint Resolve readonly_cl_lin : readonly.

Lemma readonly_delta_cl_nl alpha : readonly (delta_cl_nl alpha).
Proof. unfold delta_cl_nl. readonly_steps. Qed.

#[export] Hint Resolve readonly_delta_cl_nl : readonly.

Lemma readonly_cl alpha : readonly (cl alpha).
Proof. unfold cl. readonly_steps. Qed.

#[export] Hint Resolve readonly_cl : readonly.

Lemma readonly_cd_lin alpha : readonly (cd_lin alpha).
Proof. unfold cd_lin. readonly_steps. Qed.

Lemma readonly_delta_cd_nl alpha : readonly (delta_cd_nl alpha).
Proof. unfold delta_cd_nl. readonly_steps. Qed.

#[export] Hint Resolve readonly_cd_lin readonly_delta_cd_nl : readonly.

Lemma readonly_cd alpha : readonly (cd alpha).
Proof. unfold cd. readonly_steps. Qed.

(** ** What a call yields *)

Lemma yields_returns {A : Type} (m : method A) self a :
  yields m self a -> returns m self = Ok a.
Proof. unfold yields, returns. intros ->. reflexivity. Qed.

Lemma yields_ret {A : Type} (a : A) self : yields (ret a) self a.
Proof. reflexivity. Qed.

Lemma yields_attr x self : yields (attr x) self (x self).
Proof. reflexivity. Qed.

Lemma yields_bind {A B : Type} (m : method A) (k : A -> method B) self a b :
  yields m self a -> yields (k a) self b -> yields (bind m k) self b.
Proof. unfold yields, bind. intros -> ->. reflexivity. Qed.

Lemma pydiv_ok x y : y <> 0 -> pydiv x y = Ok (x / y).
Proof. intro Hy. unfold pydiv. destruct (Req_dec_T y 0); [ contradiction | reflexivity ]. Qed.

Lemma pydiv_zero x : pydiv x 0 = Raise ZeroDivisionError.
Proof. unfold pydiv. destruct (Req_dec_T 0 0) as [_ | Hn]; [ reflexivity | now elim Hn ]. Qed.

Lemma yields_pydiv x y self : y <> 0 -> yields (lift (pydiv x y)) self (x / y).
Proof. intro Hy. unfold yields, lift. now rewrite pydiv_ok. Qed.

Lemma raises_bind {A B : Type} (m : method A) (k : A -> method B) self err :
  m self = (Raise err, self) -> bind m k self = (Raise err, self).
Proof. unfold bind. intros ->. reflexivity. Qed.

Lemma bind_yields {A B : Type} (m : method A) (k : A -> method B) self a :
  yields m self a -> bind m k self = k a self.
Proof. unfold yields, bind. intros ->. reflexivity. Qed.

Lemma one_plus_exp_neq_0 x : 1 + exp x <> 0.
Proof. pose proof (exp_pos x). lra. Qed.

Lemma yields_cl_lin self alpha : yields (cl_lin alpha) self (linear_cl self alpha).
Proof.
  unfold cl_lin.
  eapply yields_bind; [ apply yields_attr | ].
  eapply yields_bind; [ apply yields_attr | ].
  apply yields_ret.
Qed.

Lemma yields_delta_cl_nl self alpha :
  dCl_stall self <> 0 ->
  yields (delta_cl_nl alpha) self (stall_offset_cl self alpha).
Proof.
  intro Hw. unfold delta_cl_nl.
  eapply yields_bind; [ apply yields_cl_lin | ].
  eapply yields_bind; [ apply yields_attr | ].
  eapply yields_bind; [ apply yields_attr | ].
  eapply yields_bind; [ apply yields_attr | ].
  eapply yields_bind; [ apply yields_pydiv, Hw | ].
  eapply yields_bind; [ apply yields_attr | ].
  eapply yields_bind; [ apply yields_attr | ].
  eapply yields_bind; [ apply yields_pydiv, Hw | ].
  eapply yields_bind; [ apply yields_pydiv, one_plus_exp_neq_0 | ].
  apply yields_ret.
Qed.

Lemma yields_cl self alpha :
  dClda self <> 0 -> dCl_stall self <> 0 ->
  yields (cl alpha) self (cl_closed self alpha).
Proof.
  intros Hk Hw. unfold cl.
  eapply yields_bind; [ apply yields_cl_lin | ].
  eapply yields_bind; [ apply yields_attr | ].
  eapply yields_bind; [ apply yields_attr | ].
  eapply yields_bind; [ apply yields_pydiv, Hk | ].
  eapply yields_bind; [ apply yields_delta_cl_nl, Hw | ].
  apply yields_ret.
Qed.

Lemma yields_cd_lin self alpha :
  dClda self <> 0 -> dCl_stall self <> 0 ->
  yields (cd_lin alpha) self (linear_cd self alpha).
Proof.
  intros Hk Hw. unfold cd_lin.
  eapply yields_bind; [ apply yields_attr | ].
  eapply yields_bind; [ apply yields_attr | ].
  eapply yields_bind; [ apply yields_cl; assumption | ].
  eapply yields_bind; [ apply yields_attr | ].
  apply yields_ret.
Qed.

Lemma yields_delta_cd_nl self alpha :
  dClda self <> 0 -> dCl_stall self <> 0 ->
  yields (delta_cd_nl alpha) self (stall_offset_cd self alpha).
Proof.
  intros Hk Hw. unfold delta_cd_nl.
  eapply yields_bind; [ apply yields_attr | ].
  eapply yields_bind; [ apply yields_attr | ].
  eapply yields_bind; [ apply yields_pydiv, Hk | ].
  eapply yields_bind; [ apply yields_delta_cl_nl, Hw | ].
  eapply yields_bind; [ apply yields_attr | ].
  eapply yields_bind; [ apply yields_pydiv, Hk | ].
  apply yields_ret.
Qed.

Lemma yields_cd self alpha :
  dClda self <> 0 -> dCl_stall self <> 0 ->
  yields (cd alpha) self (cd_closed self alpha).
Proof.
  intros Hk Hw. unfold cd.
  eapply yields_bind; [ apply yields_cd_lin; assumption | ].
  eapply yields_bind; [ apply yields_delta_cd_nl; assumption | ].
  apply yields_ret.
Qed.

(** ** The coefficient model *)

Lemma same_parameters_refl s : same_parameters s s.
Proof. repeat split. Qed.

Lemma readonly_same_parameters {A : Type} (m : method A) self :
  readonly m -> same_parameters (leaves m self) self.
Proof. intro Hm. rewrite Hm. apply same_parameters_refl. Qed.

(** C9: for every Section and every angle of attack, each of the six
    coefficient operations ([cl_lin], [delta_cl_nl], [cl], [cd_lin],
    [delta_cd_nl], [cd]) leaves the object with all thirteen parameter
    fields unchanged, whether the call returns or raises. *)
Theorem evaluation_never_mutates (self : SectionObj) (alpha : R) :
  same_parameters (leaves (cl_lin alpha) self) self /\
  same_parameters (leaves (delta_cl_nl alpha) self) self /\
  same_parameters (leaves (cl alpha) self) self /\
  same_parameters (leaves (cd_lin alpha) self) self /\
  same_parameters (leaves (delta_cd_nl alpha) self) self /\
  same_parameters (leaves (cd alpha) self) self.
Proof.
  split; [ apply readonly_same_parameters, readonly_cl_lin | ].
  split; [ apply readonly_same_parameters, readonly_delta_cl_nl | ].
  split; [ apply readonly_same_parameters, readonly_cl | ].
  split; [ apply readonly_same_parameters, readonly_cd_lin | ].
  split; [ apply readonly_same_parameters, readonly_delta_cd_nl | ].
  apply readonly_same_parameters, readonly_cd.
Qed.






(** C6: for every Section with valid parameters ([dClda <> 0],
    [dCl_stall > 0]) and every angle of attack, [cl] and [delta_cl_nl]
    return their closed forms and [cd(alpha)] returns
    [Cd_min + dCddCl2 * (cl(alpha) - Cl_Cd_min)^2] plus the stall penalty
    [2 * ((1 - dClda_stall/dClda) * delta_cl_nl(alpha) / dClda)^2]. *)
Theorem cd_is_polar_plus_stall_penalty (s : SectionObj) (alpha : R) :
  dClda s <> 0 -> dCl_stall s > 0 ->
  returns (cl alpha) s = Ok (cl_closed s alpha) /\
  returns (delta_cl_nl alpha) s = Ok (stall_offset_cl s alpha) /\
  returns (cd alpha) s =
    Ok (Cd_min s + dCddCl2 s * (cl_closed s alpha - Cl_Cd_min s) ^ 2 +
        2 * ((1 - dClda_stall s / dClda s) * stall_offset_cl s alpha / dClda s) ^ 2).
Proof.
  intros Hk Hw. assert (Hw' : dCl_stall s <> 0) by lra.
  split; [ apply yields_returns, yields_cl; assumption | ].
  split; [ apply yields_returns, yields_delta_cl_nl; assumption | ].
  apply yields_returns. exact (yields_cd s alpha Hk Hw').
Qed.

Lemma cd_is_polar_plus_stall_penalty_witness :
  returns (cl 5) sample_section = Ok (cl_closed sample_section 5) /\
  returns (delta_cl_nl 5) sample_section = Ok (stall_offset_cl sample_section 5) /\
  returns (cd 5) sample_section =
    Ok (Cd_min sample_section +
        dCddCl2 sample_section * (cl_closed sample_section 5 - Cl_Cd_min sample_section) ^ 2 +
        2 * ((1 - dClda_stall sample_section / dClda sample_section) *
             stall_offset_cl sample_section 5 / dClda sample_section) ^ 2).
Proof.
  apply (cd_is_polar_plus_stall_penalty sample_section 5); cbn; lra.
Defined.

(** C7, as the code has it: for every Section with [dClda <> 0] and
    [dCl_stall <> 0], [cl_lin(alpha)] is [(alpha - a_0) * pi/180 * dClda],
    [cl(alpha)] is [cl_lin(alpha) - (1 - dClda_stall/dClda) *
    delta_cl_nl(alpha)], and when moreover [dClda_stall = dClda] the call
    [cl(alpha)] returns exactly what [cl_lin(alpha)] returns. *)
Theorem cl_degenerates_to_linear (s : SectionObj) (alpha : R) :
  dClda s <> 0 -> dCl_stall s <> 0 ->
  returns (cl_lin alpha) s = Ok ((alpha - a_0 s) * PI / 180 * dClda s) /\
  returns (cl alpha) s =
    Ok (linear_cl s alpha - (1 - dClda_stall s / dClda s) * stall_offset_cl s alpha) /\
  (dClda_stall s = dClda s -> returns (cl alpha) s = returns (cl_lin alpha) s).
Proof.
  intros Hk Hw.
  pose proof (yields_returns _ _ _ (yields_cl_lin s alpha)) as Hlin.
  pose proof (yields_returns _ _ _ (yields_cl s alpha Hk Hw)) as Hcl.
  split; [ exact Hlin | ]. split; [ exact Hcl | ].
  intro Heq. rewrite Hcl, Hlin. f_equal. unfold cl_closed.
  rewrite Heq. replace (dClda s / dClda s) with 1 by (field; exact Hk). ring.
Qed.

Lemma cl_degenerates_to_linear_witness :
  returns (cl_lin 5) unstalled_section =
    Ok ((5 - a_0 unstalled_section) * PI / 180 * dClda unstalled_section) /\
  returns (cl 5) unstalled_section =
    Ok (linear_cl unstalled_section 5 -
        (1 - dClda_stall unstalled_section / dClda unstalled_section) *
        stall_offset_cl unstalled_section 5) /\
  (dClda_stall unstalled_section = dClda unstalled_section ->
   returns (cl 5) unstalled_section = returns (cl_lin 5) unstalled_section).
Proof.
  apply (cl_degenerates_to_linear unstalled_section 5); cbn; lra.
Defined.

Lemma delta_cl_nl_raises_without_width self alpha :
  dCl_stall self = 0 -> delta_cl_nl alpha self = (Raise ZeroDivisionError, self).
Proof.
  intro Hw. unfold delta_cl_nl.
  rewrite (bind_yields _ _ _ _ (yields_cl_lin self alpha)).
  rewrite (bind_yields _ _ _ _ (yields_attr dCl_stall self)).
  rewrite (bind_yields _ _ _ _ (yields_attr Cl_max self)).
  rewrite (bind_yields _ _ _ _ (yields_attr dCl_stall self)).
  apply raises_bind. unfold lift. rewrite Hw, pydiv_zero. reflexivity.
Qed.

(** C7, as stated, fails: with [dClda_stall = dClda = 1] and
    [dCl_stall = 0], [cl_lin(0)] returns 0 but [cl(0)] raises
    [ZeroDivisionError] inside [delta_cl_nl]. *)
Lemma cl_degenerate_needs_blend_width :
  dClda_stall zero_width_section = dClda zero_width_section /\
  dClda zero_width_section <> 0 /\
  returns (cl_lin 0) zero_width_section = Ok 0 /\
  returns (cl 0) zero_width_section = Raise ZeroDivisionError.
Proof.
  split; [ reflexivity | ].
  split; [ cbn; lra | ].
  split.
  - rewrite (yields_returns _ _ _ (yields_cl_lin zero_width_section 0)).
    f_equal. unfold linear_cl. cbn. lra.
  - unfold returns, cl.
    rewrite (bind_yields _ _ _ _ (yields_cl_lin zero_width_section 0)).
    rewrite (bind_yields _ _ _ _ (yields_attr dClda_stall zero_width_section)).
    rewrite (bind_yields _ _ _ _ (yields_attr dClda zero_width_section)).
    rewrite (bind_yields _ _ _ _ (yields_pydiv _ _ zero_width_section
               (ltac:(cbn; lra) : dClda zero_width_section <> 0))).
    rewrite (raises_bind _ _ _ _
               (delta_cl_nl_raises_without_width zero_width_section 0 eq_refl)).
    reflexivity.
Qed.

(** ** [fit_polar]: which columns it reads *)

Section FitFacts.

Variable minimize : (list R -> result R) -> list R -> list (R * R) -> list R.
Variable newton : (R -> result R) -> R -> (R -> result R) -> result R.

Lemma column_ok polar j : (j < ncols polar)%nat -> column polar j = Ok (column_values polar j).
Proof. intro Hj. unfold column. now apply Nat.ltb_lt in Hj as ->. Qed.

Lemma column_out_of_range polar j : (ncols polar <= j)%nat -> column polar j = Raise IndexError.
Proof. intro Hj. unfold column. now apply Nat.ltb_ge in Hj as ->. Qed.

Lemma fit_polar_few_columns polar :
  (ncols polar < 5)%nat -> fit_polar minimize newton polar = Raise IndexError.
Proof.
  intro Hn. unfold fit_polar.
  destruct (Nat.le_gt_cases (ncols polar) 0) as [H0 | H0];
    [ now rewrite (column_out_of_range polar 0 H0) | rewrite (column_ok polar 0 H0) ].
  destruct (Nat.le_gt_cases (ncols polar) 1) as [H1 | H1];
    [ now rewrite (column_out_of_range polar 1 H1) | rewrite (column_ok polar 1 H1) ].
  destruct (Nat.le_gt_cases (ncols polar) 2) as [H2 | H2];
    [ now rewrite (column_out_of_range polar 2 H2) | rewrite (column_ok polar 2 H2) ].
  cbn [rbind].
  assert (H9 : (ncols polar =? 9)%nat = false) by (apply Nat.eqb_neq; lia).
  rewrite H9. cbn [rbind].
  rewrite (column_out_of_range polar 4) by lia. reflexivity.
Qed.

Lemma fit_polar_default_mach polar :
  (5 <= ncols polar)%nat -> ncols polar <> 9%nat ->
  fit_polar minimize newton polar =
    Ok (__init__ (fitted minimize polar)
          [("Cm_const"%string, np_mean (column_values polar 4)); ("M_crit"%string, 0.6)]).
Proof.
  intros Hn H9. unfold fit_polar, fitted.
  rewrite !column_ok by lia. cbn [rbind].
  apply Nat.eqb_neq in H9. rewrite H9. cbn [rbind]. reflexivity.
Qed.

Lemma fit_polar_nine_columns polar :
  ncols polar = 9%nat ->
  fit_polar minimize newton polar =
    rbind (cp_at_zero polar) (fun cp =>
    rbind (newton (f cp) 1 df) (fun m =>
    Ok (__init__ (fitted minimize polar)
          [("Cm_const"%string, np_mean (column_values polar 4)); ("M_crit"%string, m)]))).
Proof.
  intro H9. unfold fit_polar, fitted.
  rewrite !column_ok by lia. cbn [rbind].
  rewrite H9. cbn [Nat.eqb rbind].
  destruct (cp_at_zero polar) as [cp | err]; cbn [rbind]; [ | reflexivity ].
  destruct (newton (f cp) 1 df) as [m | err]; reflexivity.
Qed.

End FitFacts.

(** ** The objective of the fit *)

Lemma yields_vectorized (m : R -> method R) (g : R -> R) self alphas :
  (forall alpha, yields (m alpha) self (g alpha)) ->
  yields (vectorized m alphas) self (map g alphas).
Proof.
  intro Hm. induction alphas as [ | alpha rest IH ]; simpl.
  - apply yields_ret.
  - eapply yields_bind; [ apply Hm | ].
    eapply yields_bind; [ apply IH | ].
    apply yields_ret.
Qed.

Ltac forall2_cases :=
  repeat match goal with
         | H : Forall2 _ _ (_ :: _) |- _ => inversion H; subst; clear H
         | H : Forall2 _ _ [] |- _ => inversion H; subst; clear H
         end.

Lemma within_bounds_valid y :
  within y bounds ->
  1 <= dClda (__init__ y []) <= 20 /\ 0.1 <= dCl_stall (__init__ y []) <= 0.3.
Proof.
  unfold within, bounds. intro H. forall2_cases. cbn in *. lra.
Qed.

Lemma e_on_valid a cl_ cd_ y :
  dClda (__init__ y []) <> 0 -> dCl_stall (__init__ y []) <> 0 ->
  e a cl_ cd_ y =
    Ok (rms_error (map (cl_closed (__init__ y [])) a) cl_ +
        rms_error (map (cd_closed (__init__ y [])) a) cd_).
Proof.
  intros Hk Hw. unfold e.
  rewrite (yields_returns _ _ _
             (yields_vectorized cl (cl_closed (__init__ y [])) _ a
                (fun alpha => yields_cl _ alpha Hk Hw))).
  rewrite (yields_returns _ _ _
             (yields_vectorized cd (cd_closed (__init__ y [])) _ a
                (fun alpha => yields_cd _ alpha Hk Hw))).
  reflexivity.
Qed.




Lemma squared_error_sum_nonneg u v : 0 <= squared_error_sum u v.
Proof.
  revert v. induction u as [ | x u IH ]; intros [ | y v ]; cbn [squared_error_sum];
    try lra.
  specialize (IH v). pose proof (Rle_0_sqr (x - y)) as Hsq. unfold Rsqr in Hsq. lra.
Qed.

(** On a table with at least one row, the root-mean-square error is the
    one number [r >= 0] with [n * r^2] the sum of the squared
    differences. *)
Lemma root_mean_square_error_unique model measured r :
  measured <> [] ->
  (0 <= r /\ r * r * INR (List.length measured) = squared_error_sum model measured) <->
  r = root_mean_square_error model measured.
Proof.
  intro Hne. unfold root_mean_square_error.
  assert (Hn : 0 < INR (List.length measured)).
  { destruct measured; [ congruence | ]. apply lt_0_INR. simpl. lia. }
  pose proof (squared_error_sum_nonneg model measured) as Hs.
  split.
  - intros [Hr Heq]. rewrite <- Heq.
    replace (r * r * INR (List.length measured) / INR (List.length measured))
      with (r * r) by (field; lra).
    symmetry. now apply sqrt_square.
  - intros ->. split; [ apply sqrt_pos | ].
    rewrite sqrt_sqrt.
    + field; lra.
    + apply Rmult_le_pos; [ exact Hs | ]. left. now apply Rinv_0_lt_compat.
Qed.



Lemma well_formed_four_column_polar : well_formed four_column_polar.
Proof. unfold well_formed. repeat constructor. Qed.

Lemma well_formed_five_column_polar : well_formed five_column_polar.
Proof. unfold well_formed. repeat constructor. Qed.

(** C2: the code does otherwise.  On the well-formed five-row polar with
    the four columns alpha, cl, cd, cm, [fit_polar] raises [IndexError]
    for every optimiser and root-finder: after the fit it reads
    [polar[:, 4]], a fifth column. *)
Theorem four_column_polar_raises
    (minimize : (list R -> result R) -> list R -> list (R * R) -> list R)
    (newton : (R -> result R) -> R -> (R -> result R) -> result R) :
  well_formed four_column_polar /\
  ncols four_column_polar = 4%nat /\
  List.length (rows four_column_polar) = 5%nat /\
  fit_polar minimize newton four_column_polar = Raise IndexError.
Proof.
  split; [ exact well_formed_four_column_polar | ].
  split; [ reflexivity | ]. split; [ reflexivity | ].
  apply fit_polar_few_columns. cbn. lia.
Qed.

Lemma np_mean_pair x y : np_mean [x; y] = (x + y) / 2.
Proof. unfold np_mean, np_sum. cbn. field. Qed.

(** C3: the code does otherwise.  On a polar whose fourth column (the
    moment coefficient) is -0.05 in every row and whose fifth column
    holds 0.2 and 0.4, the returned Section has [Cm_const = 0.3], the
    mean of the fifth column, not -0.05. *)
Theorem Cm_const_is_mean_of_fifth_column
    (minimize : (list R -> result R) -> list R -> list (R * R) -> list R)
    (newton : (R -> result R) -> R -> (R -> result R) -> result R) :
  exists s,
    fit_polar minimize newton five_column_polar = Ok s /\
    Cm_const s = 0.3 /\
    Cm_const s = np_mean (column_values five_column_polar 4) /\
    np_mean (column_values five_column_polar 3) = -0.05.
Proof.
  eexists. split.
  - apply fit_polar_default_mach; cbn; lia.
  - cbn [Cm_const __init__ keyword kw_get String.eqb Ascii.eqb Bool.eqb].
    split; [ | split; [ reflexivity | ] ]; cbn [column_values five_column_polar rows map nth];
      rewrite np_mean_pair; lra.
Qed.

(** C4, as stated, fails: a well-formed polar of two rows (fewer than the
    nine free parameters) and five columns is fitted, and a Section is
    returned, whatever the optimiser and the root-finder. *)
Lemma short_polar_is_fitted :
  well_formed five_column_polar /\
  (List.length (rows five_column_polar) <= 9)%nat /\
  (forall minimize newton,
      fit_polar minimize newton five_column_polar =
        Ok (__init__ (fitted minimize five_column_polar)
              [("Cm_const"%string, np_mean (column_values five_column_polar 4));
               ("M_crit"%string, 0.6)])).
Proof.
  split; [ exact well_formed_five_column_polar | ].
  split; [ cbn; lia | ].
  intros minimize newton. apply fit_polar_default_mach; cbn; lia.
Qed.

(** C4, as the code has it: [fit_polar] never looks at the number of
    rows.  A polar with at least one row and five or more columns, other
    than nine, is fitted and a Section is returned, with [M_crit = 0.6],
    however few rows there are.  (A polar without rows is left out: the
    mean of an empty column is nan.) *)
Theorem fit_polar_ignores_row_count
    (minimize : (list R -> result R) -> list R -> list (R * R) -> list R)
    (newton : (R -> result R) -> R -> (R -> result R) -> result R)
    (polar : ndarray) :
  rows polar <> [] -> (5 <= ncols polar)%nat -> ncols polar <> 9%nat ->
  exists s, fit_polar minimize newton polar = Ok s /\ M_crit s = 0.6.
Proof.
  intros _ Hn H9. eexists.
  split; [ apply fit_polar_default_mach; assumption | reflexivity ].
Qed.

Lemma fit_polar_ignores_row_count_witness :
  exists s, fit_polar start_point_minimize first_guess_newton five_column_polar = Ok s /\
            M_crit s = 0.6.
Proof.
  apply (fit_polar_ignores_row_count start_point_minimize first_guess_newton
           five_column_polar); cbn; [ discriminate | lia | lia ].
Defined.

(** ** [np.unique]: sorted, without repeats, first occurrences *)

Lemma in_enumerate_from v i k l :
  In (v, i) (enumerate_from k l) <-> (k <= i)%nat /\ nth_error l (i - k) = Some v.
Proof.
  revert k. induction l as [ | x l IH ]; intro k; simpl.
  - split; [ tauto | ]. intros [_ H]. destruct (i - k)%nat; discriminate.
  - rewrite IH. split.
    + intros [Heq | [Hle Hnth]].
      * injection Heq as -> ->. split; [ lia | ]. now rewrite Nat.sub_diag.
      * split; [ lia | ]. replace (i - k)%nat with (S (i - S k)) by lia. exact Hnth.
    + intros [Hle Hnth]. destruct (Nat.eq_dec i k) as [-> | Hne].
      * rewrite Nat.sub_diag in Hnth. left. simpl in Hnth. now injection Hnth as ->.
      * right. split; [ lia | ].
        replace (i - k)%nat with (S (i - S k)) in Hnth by lia. exact Hnth.
Qed.

Lemma in_insert_sorted p q l : In p (insert_sorted q l) <-> p = q \/ In p l.
Proof.
  induction l as [ | r l IH ]; simpl.
  - intuition congruence.
  - destruct (Rle_dec (fst q) (fst r)); simpl; [ | rewrite IH ]; intuition congruence.
Qed.

Lemma in_sorted_pairs p ps : In p (fold_right insert_sorted [] ps) <-> In p ps.
Proof.
  induction ps as [ | q ps IH ]; simpl; [ tauto | ].
  rewrite in_insert_sorted, IH. intuition congruence.
Qed.

Lemma insert_sorted_sorted p l :
  StronglySorted before l ->
  (forall q, In q l -> (snd p < snd q)%nat) ->
  StronglySorted before (insert_sorted p l).
Proof.
  induction l as [ | r l IH ]; intros Hs Hidx; simpl.
  - repeat constructor.
  - inversion Hs as [ | ? ? Hs' Hall ]; subst.
    destruct (Rle_dec (fst p) (fst r)) as [Hle | Hgt].
    + constructor; [ exact Hs | ].
      assert (Hpr : before p r).
      { unfold before. pose proof (Hidx r (or_introl eq_refl)). destruct Hle; [ left | right ]; auto. }
      constructor; [ exact Hpr | ].
      rewrite Forall_forall in *. intros q Hq.
      pose proof (Hall q Hq) as Hrq. pose proof (Hidx q (or_intror Hq)) as Hi.
      unfold before in *. destruct (Rle_lt_or_eq_dec _ _ Hle) as [Hlt | Heq].
      * left. destruct Hrq as [ ? | [? _] ]; lra.
      * destruct Hrq as [ ? | [Hv _] ]; [ left; lra | right; split; [ lra | exact Hi ] ].
    + constructor.
      * apply IH; [ exact Hs' | ]. intros q Hq. apply Hidx. now right.
      * rewrite Forall_forall in *. intros q Hq.
        apply in_insert_sorted in Hq as [-> | Hq]; [ | now apply Hall ].
        left. lra.
Qed.

Lemma sorted_enumerate_from k l :
  StronglySorted before (fold_right insert_sorted [] (enumerate_from k l)).
Proof.
  revert k. induction l as [ | x l IH ]; intro k; simpl.
  - constructor.
  - apply insert_sorted_sorted; [ apply IH | ].
    intros [v i] Hq. apply in_sorted_pairs, in_enumerate_from in Hq. simpl. lia.
Qed.

Lemma in_keep_new prev l p : In p (keep_new prev l) -> In p l.
Proof.
  revert prev. induction l as [ | q l IH ]; intro prev; simpl; [ tauto | ].
  destruct (Req_dec_T (fst q) prev); simpl; intros H.
  - right. eapply IH, H.
  - destruct H as [ -> | H ]; [ now left | right; eapply IH, H ].
Qed.

Lemma keep_new_above h l :
  StronglySorted before (h :: l) ->
  Forall (fun p => fst h < fst p) (keep_new (fst h) l) /\
  StronglySorted Rlt (map fst (keep_new (fst h) l)).
Proof.
  revert h. induction l as [ | q l IH ]; intros h Hs; simpl.
  - split; constructor.
  - inversion Hs as [ | ? ? Hs' Hall ]; subst.
    destruct (IH q Hs') as [Habove Hsorted].
    assert (Hhq : before h q) by (inversion Hall; assumption).
    destruct (Req_dec_T (fst q) (fst h)) as [Heq | Hne].
    + rewrite Heq in *. split; assumption.
    + assert (Hlt : fst h < fst q) by (destruct Hhq as [ ? | [? _] ]; [ assumption | congruence ]).
      split.
      * constructor; [ exact Hlt | ].
        eapply Forall_impl; [ | exact Habove ]. simpl. intros; lra.
      * simpl. constructor; [ exact Hsorted | ].
        rewrite Forall_map. exact Habove.
Qed.

Lemma keep_new_first h l p r :
  StronglySorted before (h :: l) ->
  In p (keep_new (fst h) l) -> In r (h :: l) -> fst r = fst p -> (snd p <= snd r)%nat.
Proof.
  revert h. induction l as [ | q l IH ]; intros h Hs Hp Hr Heq; simpl in Hp; [ tauto | ].
  inversion Hs as [ | ? ? Hs' Hall ]; subst.
  assert (Hhq : before h q) by (inversion Hall; assumption).
  destruct (keep_new_above q l Hs') as [Habove _]. rewrite Forall_forall in Habove.
  destruct (Req_dec_T (fst q) (fst h)) as [Hqh | Hne].
  - destruct Hr as [ <- | Hr ]; [ | now apply (IH q) ].
    specialize (Habove p Hp). lra.
  - assert (Hlt : fst h < fst q) by (destruct Hhq as [ ? | [? _] ]; [ assumption | congruence ]).
    destruct Hp as [ <- | Hp ].
    + destruct Hr as [ <- | [ <- | Hr ] ]; [ lra | lia | ].
      inversion Hs' as [ | ? ? _ Hall' ]; subst. rewrite Forall_forall in Hall'.
      destruct (Hall' r Hr) as [ ? | [_ ?] ]; [ lra | lia ].
    + destruct Hr as [ <- | Hr ]; [ | now apply (IH q) ].
      specialize (Habove p Hp). lra.
Qed.

Lemma keep_new_covers prev l q :
  In q l -> fst q <> prev -> exists p, In p (keep_new prev l) /\ fst p = fst q.
Proof.
  revert prev. induction l as [ | r l IH ]; intros prev Hq Hne; simpl; [ contradiction | ].
  destruct (Req_dec_T (fst r) prev) as [Hr | Hr].
  - destruct Hq as [ -> | Hq ]; [ contradiction | ].
    apply IH; [ exact Hq | congruence ].
  - destruct Hq as [ -> | Hq ]; [ exists q; simpl; auto | ].
    destruct (Req_dec_T (fst q) (fst r)) as [Hqr | Hqr].
    + exists r. simpl. auto.
    + destruct (IH (fst r) Hq Hqr) as [p [Hp Hpq]]. exists p. simpl. auto.
Qed.

Section Kept.
Variable l : list R.
Let kept := keep_first_of_runs (argsort_stable l).

Lemma kept_in p : In p kept -> In p (enumerate_from 0 l).
Proof.
  unfold kept, keep_first_of_runs, argsort_stable. intro Hp.
  apply in_sorted_pairs.
  destruct (fold_right insert_sorted [] (enumerate_from 0 l)) as [ | h s ]; [ contradiction | ].
  destruct Hp as [ <- | Hp ]; [ now left | right; eapply in_keep_new, Hp ].
Qed.

Lemma kept_sorted : StronglySorted Rlt (map fst kept).
Proof.
  unfold kept, keep_first_of_runs, argsort_stable.
  pose proof (sorted_enumerate_from 0 l) as Hs.
  destruct (fold_right insert_sorted [] (enumerate_from 0 l)) as [ | h s ]; [ constructor | ].
  destruct (keep_new_above h s Hs) as [Habove Hsorted].
  simpl. constructor; [ exact Hsorted | ]. rewrite Forall_map. exact Habove.
Qed.

Lemma kept_first v i j :
  In (v, i) kept -> nth_error l j = Some v -> (i <= j)%nat.
Proof.
  unfold kept, keep_first_of_runs, argsort_stable. intros Hp Hj.
  assert (Hr : In (v, j) (fold_right insert_sorted [] (enumerate_from 0 l))).
  { apply in_sorted_pairs, in_enumerate_from. split; [ lia | now rewrite Nat.sub_0_r ]. }
  pose proof (sorted_enumerate_from 0 l) as Hs.
  destruct (fold_right insert_sorted [] (enumerate_from 0 l)) as [ | h s ]; [ contradiction | ].
  destruct Hp as [ -> | Hp ].
  - destruct Hr as [ Heq | Hr ]; [ injection Heq as <-; lia | ].
    inversion Hs as [ | ? ? _ Hall ]; subst. rewrite Forall_forall in Hall.
    destruct (Hall _ Hr) as [ ? | [_ ?] ]; simpl in *; [ lra | lia ].
  - exact (keep_new_first h s (v, i) (v, j) Hs Hp Hr eq_refl).
Qed.

Lemma kept_covers x : In x l -> In x (map fst kept).
Proof.
  unfold kept, keep_first_of_runs, argsort_stable. intro Hx.
  apply In_nth_error in Hx as [j Hj].
  assert (Hr : In (x, j) (fold_right insert_sorted [] (enumerate_from 0 l))).
  { apply in_sorted_pairs, in_enumerate_from. split; [ lia | now rewrite Nat.sub_0_r ]. }
  destruct (fold_right insert_sorted [] (enumerate_from 0 l)) as [ | h s ]; [ contradiction | ].
  simpl. destruct (Req_dec_T x (fst h)) as [ -> | Hne ]; [ now left | right ].
  destruct Hr as [ -> | Hr ]; [ now elim Hne | ].
  destruct (keep_new_covers (fst h) s (x, j) Hr Hne) as [p [Hp Hpx]].
  apply in_map_iff. exists p. auto.
Qed.
End Kept.

Lemma nth_error_pairs (kept : list (R * nat)) k v i :
  nth_error (map fst kept) k = Some v -> nth_error (map snd kept) k = Some i ->
  nth_error kept k = Some (v, i).
Proof.
  rewrite !nth_error_map. destruct (nth_error kept k) as [ [v' i'] | ]; simpl; congruence.
Qed.

Lemma np_unique_nonempty l : l <> [] -> fst (np_unique l) <> [].
Proof.
  intros Hl. destruct l as [ | x l ]; [ congruence | ].
  unfold np_unique, argsort_stable. simpl.
  destruct (fold_right insert_sorted [] (enumerate_from 1 l)) as [ | q s ]; simpl;
    [ | destruct (Rle_dec x (fst q)) ]; discriminate.
Qed.

(** ** [np.interp] at a sample point *)

Lemma sorted_head_le x0 xp k x :
  StronglySorted Rlt (x0 :: xp) -> nth_error (x0 :: xp) k = Some x -> x0 <= x.
Proof.
  intros Hs Hk. destruct k as [ | k ]; simpl in Hk.
  - injection Hk as ->. lra.
  - inversion Hs as [ | ? ? _ Hall ]; subst. rewrite Forall_forall in Hall.
    left. apply Hall. eapply nth_error_In, Hk.
Qed.

Lemma interp_from_sample x0 f0 xp fp k x v :
  StronglySorted Rlt (x0 :: xp) ->
  nth_error (x0 :: xp) k = Some x -> nth_error (f0 :: fp) k = Some v ->
  interp_from x x0 f0 xp fp = v.
Proof.
  revert x0 f0 fp k. induction xp as [ | x1 xp IH ]; intros x0 f0 fp k Hs Hx Hv.
  - destruct k as [ | k ]; simpl in *; [ congruence | destruct k; discriminate ].
  - inversion Hs as [ | ? ? Hs' Hall ]; subst.
    assert (H01 : x0 < x1) by (inversion Hall; assumption).
    destruct k as [ | k ]; simpl in Hx, Hv.
    + injection Hx as ->. injection Hv as ->. simpl.
      destruct fp as [ | f1 fp ]; [ reflexivity | ].
      destruct (Rlt_dec x x1) as [ _ | Hn ]; [ | contradiction ].
      destruct (Req_dec_T x x) as [ _ | Hn ]; [ reflexivity | now elim Hn ].
    + destruct fp as [ | f1 fp ]; [ destruct k; discriminate | ].
      pose proof (sorted_head_le x1 xp k x Hs' Hx) as Hle. simpl.
      destruct (Rlt_dec x x1) as [ Hlt | _ ]; [ lra | ].
      exact (IH x1 f1 fp k Hs' Hx Hv).
Qed.

Lemma np_interp_sample xp fp k x v :
  StronglySorted Rlt xp -> List.length xp = List.length fp ->
  nth_error xp k = Some x -> nth_error fp k = Some v ->
  np_interp x xp fp = Ok v.
Proof.
  intros Hs Hlen Hx Hv.
  destruct xp as [ | x0 xp ]; [ destruct k; discriminate | ].
  destruct fp as [ | f0 fp ]; [ discriminate | ].
  simpl in Hlen. injection Hlen as Hlen. simpl.
  apply Nat.eqb_eq in Hlen as ->.
  pose proof (sorted_head_le x0 xp k x Hs Hx) as Hle.
  destruct (Rlt_dec x x0) as [ Hlt | _ ]; [ lra | ].
  f_equal. exact (interp_from_sample x0 f0 xp fp k x v Hs Hx Hv).
Qed.

Lemma np_interp_defined x xp fp :
  xp <> [] -> List.length xp = List.length fp -> exists v, np_interp x xp fp = Ok v.
Proof.
  intros Hne Hlen. destruct xp as [ | x0 xp ]; [ congruence | ].
  destruct fp as [ | f0 fp ]; [ discriminate | ].
  simpl in Hlen. injection Hlen as Hlen. simpl.
  apply Nat.eqb_eq in Hlen as ->.
  destruct (Rlt_dec x x0); eexists; reflexivity.
Qed.

(** ** The pressure coefficient at [alpha = 0] *)

Lemma mapM_entry polar j indices :
  (forall i, In i indices -> (i < List.length (rows polar))%nat) ->
  mapM (entry polar j) indices = Ok (map (fun i => nth j (nth i (rows polar) []) 0) indices).
Proof.
  induction indices as [ | i indices IH ]; intro Hin; simpl; [ reflexivity | ].
  rewrite IH by (intros i' Hi'; apply Hin; now right).
  unfold entry.
  destruct (nth_error (rows polar) i) as [ r | ] eqn:Hr.
  - now rewrite (nth_error_nth _ _ [] Hr).
  - apply nth_error_None in Hr. specialize (Hin i (or_introl eq_refl)). lia.
Qed.

Lemma unique_indices_in_range l i :
  In i (snd (np_unique l)) -> (i < List.length l)%nat.
Proof.
  unfold np_unique. simpl. intro Hi. apply in_map_iff in Hi as [ [v i'] [Heq Hp] ].
  simpl in Heq. subst i'. apply kept_in, in_enumerate_from in Hp as [_ Hnth].
  rewrite Nat.sub_0_r in Hnth. apply nth_error_Some. congruence.
Qed.

Lemma cp_at_zero_interp polar :
  (6 <= ncols polar)%nat ->
  cp_at_zero polar =
    np_interp 0 (fst (np_unique (column_values polar 0)))
                (map (Cp_of_row polar) (snd (np_unique (column_values polar 0)))).
Proof.
  intro Hn. unfold cp_at_zero, take.
  rewrite column_ok by lia. cbn [rbind].
  assert (H5 : (5 <? ncols polar)%nat = true) by (apply Nat.ltb_lt; lia).
  rewrite H5, mapM_entry; [ reflexivity | ].
  intros i Hi. apply unique_indices_in_range in Hi.
  unfold column_values in Hi. now rewrite length_map in Hi.
Qed.

Lemma np_unique_lengths l :
  List.length (snd (np_unique l)) = List.length (fst (np_unique l)).
Proof. unfold np_unique. simpl. now rewrite !length_map. Qed.

Lemma np_unique_sample l k v i :
  nth_error (fst (np_unique l)) k = Some v -> nth_error (snd (np_unique l)) k = Some i ->
  nth_error l i = Some v /\ forall j, nth_error l j = Some v -> (i <= j)%nat.
Proof.
  unfold np_unique. simpl. intros Hv Hi.
  pose proof (nth_error_In _ _ (nth_error_pairs _ k v i Hv Hi)) as Hin.
  split.
  - apply kept_in, in_enumerate_from in Hin as [_ Hnth]. now rewrite Nat.sub_0_r in Hnth.
  - intros j Hj. exact (kept_first l v i j Hin Hj).
Qed.

Lemma np_unique_same_values l x : In x l <-> In x (fst (np_unique l)).
Proof.
  split; [ apply kept_covers | ].
  unfold np_unique. simpl. intro Hx. apply in_map_iff in Hx as [ [v i] [Heq Hp] ].
  simpl in Heq. subst v. apply kept_in, in_enumerate_from in Hp as [_ Hnth].
  eapply nth_error_In, Hnth.
Qed.

Lemma cp_at_zero_first_occurrence polar i :
  (6 <= ncols polar)%nat ->
  nth_error (column_values polar 0) i = Some 0 ->
  (forall j, (j < i)%nat -> nth_error (column_values polar 0) j <> Some 0) ->
  cp_at_zero polar = Ok (Cp_of_row polar i).
Proof.
  intros Hn Hi Hfirst. rewrite (cp_at_zero_interp polar Hn).
  set (angles := column_values polar 0) in *.
  pose proof (proj1 (np_unique_same_values angles 0) (nth_error_In _ _ Hi)) as Hin.
  apply In_nth_error in Hin as [k Hk].
  assert (Hidx : exists i', nth_error (snd (np_unique angles)) k = Some i').
  { destruct (nth_error (snd (np_unique angles)) k) as [ i' | ] eqn:Hnone; [ now exists i' | ].
    apply nth_error_None in Hnone. rewrite np_unique_lengths in Hnone.
    assert (nth_error (fst (np_unique angles)) k <> None) by congruence.
    apply nth_error_Some in H. lia. }
  destruct Hidx as [i' Hi'].
  destruct (np_unique_sample angles k 0 i' Hk Hi') as [Hat Hmin].
  assert (i' = i) as ->.
  { pose proof (Hmin i Hi). destruct (Nat.eq_dec i' i) as [ | Hne ]; [ assumption | ].
    exfalso. apply (Hfirst i'); [ lia | exact Hat ]. }
  apply (np_interp_sample _ _ k).
  - apply kept_sorted.
  - now rewrite length_map, np_unique_lengths.
  - exact Hk.
  - now rewrite nth_error_map, Hi'.
Qed.

(** C8: when [fit_polar] takes the pressure-coefficient branch (nine
    columns), the value interpolated at [alpha = 0] comes from
    [np.interp] over [a_unique] and the entries [polar[indices, 5]],
    where [a_unique] holds the angles of the polar in strictly increasing
    order, each once, and [indices[k]] is the first row at which
    [a_unique[k]] occurs; so when the angle 0 is repeated, the value at
    its first row is the one taken. *)
Theorem pressure_samples_deduplicated_by_angle
    (minimize : (list R -> result R) -> list R -> list (R * R) -> list R)
    (newton : (R -> result R) -> R -> (R -> result R) -> result R)
    (polar : ndarray) :
  ncols polar = 9%nat ->
  let angles := column_values polar 0 in
  let a_unique := fst (np_unique angles) in
  let indices := snd (np_unique angles) in
  fit_polar minimize newton polar =
    rbind (cp_at_zero polar) (fun cp =>
    rbind (newton (f cp) 1 df) (fun m =>
    Ok (__init__ (fitted minimize polar)
          [("Cm_const"%string, np_mean (column_values polar 4)); ("M_crit"%string, m)]))) /\
  cp_at_zero polar = np_interp 0 a_unique (map (Cp_of_row polar) indices) /\
  StronglySorted Rlt a_unique /\
  (forall x, In x angles <-> In x a_unique) /\
  List.length indices = List.length a_unique /\
  (forall k v i,
      nth_error a_unique k = Some v -> nth_error indices k = Some i ->
      nth_error angles i = Some v /\
      forall j, nth_error angles j = Some v -> (i <= j)%nat) /\
  (forall i,
      nth_error angles i = Some 0 ->
      (forall j, (j < i)%nat -> nth_error angles j <> Some 0) ->
      cp_at_zero polar = Ok (Cp_of_row polar i)).
Proof.
  intros H9 angles a_unique indices.
  assert (H6 : (6 <= ncols polar)%nat) by lia.
  split; [ exact (fit_polar_nine_columns minimize newton polar H9) | ].
  split; [ exact (cp_at_zero_interp polar H6) | ].
  split; [ apply kept_sorted | ].
  split; [ apply np_unique_same_values | ].
  split; [ apply np_unique_lengths | ].
  split; [ apply np_unique_sample | ].
  intros i. apply cp_at_zero_first_occurrence. exact H6.
Qed.

Lemma pressure_samples_deduplicated_by_angle_witness :
  cp_at_zero nine_column_polar = Ok (-1).
Proof.
  destruct (pressure_samples_deduplicated_by_angle
              start_point_minimize first_guess_newton nine_column_polar eq_refl)
    as (_ & _ & _ & _ & _ & _ & Hfirst).
  apply (Hfirst 0%nat).
  - reflexivity.
  - intros j Hj. inversion Hj.
Defined.

(** ** The critical-Mach relation and its derivative *)

Lemma derivable_pt_lim_eq (f1 f2 : R -> R) (x l1 l2 : R) :
  derivable_pt_lim f1 x l1 -> (forall z, f1 z = f2 z) -> l1 = l2 ->
  derivable_pt_lim f2 x l2.
Proof. intros H Hf <-. exact (derivable_pt_lim_ext f1 f2 x l1 Hf H). Qed.

Lemma half_is_inv_2 : 0.5 = / 2.
Proof. lra. Qed.

Lemma gamma_neq_0 : gamma <> 0.
Proof. unfold gamma. lra. Qed.

Lemma mach_denominator_pos M : 0 < 2 * (1 + 0.5 * (gamma - 1) * M ^ 2).
Proof. unfold gamma. pose proof (pow2_ge_0 M). nra. Qed.

Lemma derivable_square M : derivable_pt_lim (fun y => y ^ 2) M (2 * M).
Proof.
  eapply derivable_pt_lim_eq;
    [ apply (derivable_pt_lim_pow M 2) | reflexivity | simpl; ring ].
Qed.

Lemma derivable_dynamic_factor M :
  M <> 0 ->
  derivable_pt_lim (fun y => 2 / (gamma * y ^ 2)) M (-4 / (gamma * M ^ 3)).
Proof.
  intro HM. pose proof gamma_neq_0 as Hg.
  eapply derivable_pt_lim_eq.
  - apply (derivable_pt_lim_div (fct_cte 2) (mult_real_fct gamma (fun y => y ^ 2))
             M 0 (gamma * (2 * M))).
    + apply derivable_pt_lim_const.
    + apply derivable_pt_lim_scal, derivable_square.
    + unfold mult_real_fct.
      apply Rmult_integral_contrapositive_currified; [ exact Hg | apply pow_nonzero, HM ].
  - intro z. reflexivity.
  - unfold mult_real_fct, fct_cte, Rsqr. field. split; assumption.
Qed.

Lemma derivable_pressure_ratio M :
  derivable_pt_lim (fun y => (gamma + 1) / (2 * (1 + 0.5 * (gamma - 1) * y ^ 2))) M
    (- ((gamma + 1) / (2 * (1 + 0.5 * (gamma - 1) * M ^ 2)) ^ 2 * 2 * (gamma - 1) * M)).
Proof.
  pose proof (mach_denominator_pos M) as HD.
  eapply derivable_pt_lim_eq.
  - apply (derivable_pt_lim_div (fct_cte (gamma + 1))
             (mult_real_fct 2
                (fct_cte 1 + mult_real_fct (0.5 * (gamma - 1)) (fun y => y ^ 2))%F)
             M 0 (2 * (0 + 0.5 * (gamma - 1) * (2 * M)))).
    + apply derivable_pt_lim_const.
    + apply derivable_pt_lim_scal, derivable_pt_lim_plus;
        [ apply derivable_pt_lim_const | apply derivable_pt_lim_scal, derivable_square ].
    + unfold mult_real_fct, plus_fct, fct_cte. lra.
  - intro z. reflexivity.
  - unfold mult_real_fct, plus_fct, fct_cte, Rsqr.
    rewrite half_is_inv_2 in *. field. lra.
Qed.

Lemma df_closed_is_derivative cp0 M :
  M <> 0 -> derivable_pt_lim (f_closed cp0) M (df_closed M).
Proof.
  intro HM.
  pose proof (mach_denominator_pos M) as HD.
  set (p := gamma / (1 - gamma)).
  set (g := fun y => (gamma + 1) / (2 * (1 + 0.5 * (gamma - 1) * y ^ 2))).
  assert (Hgpos : 0 < g M).
  { unfold g. apply Rdiv_lt_0_compat; [ unfold gamma; lra | exact HD ]. }
  pose proof (derivable_pt_lim_comp g (fun y => Rpower y p) M _ _
                (derivable_pressure_ratio M)
                (derivable_pt_lim_power (g M) p Hgpos)) as Hw.
  eapply derivable_pt_lim_eq.
  - apply derivable_pt_lim_minus.
    + apply derivable_pt_lim_mult.
      * apply (derivable_dynamic_factor M HM).
      * apply derivable_pt_lim_minus; [ exact Hw | apply (derivable_pt_lim_const 1) ].
    + apply (derivable_pt_lim_const cp0).
  - intro z. reflexivity.
  - unfold df_closed, minus_fct, mult_fct, comp, fct_cte. fold p.
    subst g. cbv beta.
    set (W := Rpower _ p). set (W1 := Rpower _ (p - 1)).
    clearbody W W1 p. clear Hw Hgpos.
    pose proof gamma_neq_0 as Hg.
    rewrite half_is_inv_2 in *. field. repeat split; try assumption; lra.
Qed.

Lemma f_defined cp0 M : M <> 0 -> f cp0 M = Ok (f_closed cp0 M).
Proof.
  intro HM. unfold f.
  rewrite pydiv_ok
    by (apply Rmult_integral_contrapositive_currified;
        [ exact gamma_neq_0 | apply pow_nonzero, HM ]).
  cbn [rbind].
  rewrite pydiv_ok by (pose proof (mach_denominator_pos M); lra).
  reflexivity.
Qed.

Lemma df_defined M : M <> 0 -> df M = Ok (df_closed M).
Proof.
  intro HM. pose proof (mach_denominator_pos M) as HD. unfold df.
  rewrite pydiv_ok
    by (apply Rmult_integral_contrapositive_currified;
        [ exact gamma_neq_0 | apply pow_nonzero, HM ]).
  cbn [rbind]. rewrite pydiv_ok by lra. cbn [rbind].
  rewrite pydiv_ok
    by (apply Rmult_integral_contrapositive_currified;
        [ exact gamma_neq_0 | apply pow_nonzero, HM ]).
  cbn [rbind]. rewrite pydiv_ok by (apply pow_nonzero; lra).
  reflexivity.
Qed.

Lemma exponent_value : gamma / (1 - gamma) = -3.5.
Proof.
  assert (Hd : 1 - gamma <> 0) by (unfold gamma; lra).
  apply (Rmult_eq_reg_r (1 - gamma)); [ | exact Hd ].
  unfold Rdiv. rewrite Rmult_assoc, Rinv_l by exact Hd. unfold gamma. lra.
Qed.

(** Below Mach 1 and for a pressure coefficient that is not negative, the
    relation is negative: it has no root there. *)
Lemma f_closed_negative cp0 M :
  M <> 0 -> M ^ 2 < 1 -> 0 <= cp0 -> f_closed cp0 M < 0.
Proof.
  intros HM Hsub Hcp. unfold f_closed.
  pose proof (mach_denominator_pos M) as HD.
  set (g := (gamma + 1) / (2 * (1 + 0.5 * (gamma - 1) * M ^ 2))).
  assert (Hg1 : 1 < g).
  { unfold g. set (D := 2 * (1 + 0.5 * (gamma - 1) * M ^ 2)) in *.
    apply (Rmult_lt_reg_r D); [ exact HD | ].
    replace ((gamma + 1) / D * D) with (gamma + 1) by (field; lra).
    unfold D, gamma. lra. }
  pose proof (ln_increasing 1 g Rlt_0_1 Hg1) as Hln. rewrite ln_1 in Hln.
  rewrite exponent_value.
  assert (HW : Rpower g (-3.5) < 1).
  { unfold Rpower. apply Rlt_le_trans with (exp 0);
      [ apply exp_increasing; nra | rewrite exp_0; lra ]. }
  assert (Hu : 0 < 2 / (gamma * M ^ 2)).
  { apply Rdiv_lt_0_compat; [ lra | ].
    apply Rmult_lt_0_compat; [ unfold gamma; lra | ].
    pose proof (pow2_ge_0 M). pose proof (pow_nonzero M 2 HM). lra. }
  nra.
Qed.

Ltac decide_reals :=
  repeat match goal with
         | |- context [Rle_dec ?a ?b] =>
             destruct (Rle_dec a b); [ try (exfalso; lra) | try (exfalso; lra) ]
         | |- context [Rlt_dec ?a ?b] =>
             destruct (Rlt_dec a b); [ try (exfalso; lra) | try (exfalso; lra) ]
         | |- context [Req_dec_T ?a ?b] =>
             destruct (Req_dec_T a b); [ try (exfalso; lra) | try (exfalso; lra) ]
         end.

Lemma column_values_nonempty polar j : rows polar <> [] -> column_values polar j <> [].
Proof. unfold column_values. destruct (rows polar); [ congruence | discriminate ]. Qed.

(** C1, as the code has it: for a polar with at least one row and at
    least five columns, the critical-Mach step runs exactly when the
    polar has nine columns.  Then the pressure coefficient at
    [alpha = 0] is interpolated from the entries [polar[indices, 5]]
    (the sixth column) over the sorted, deduplicated angles, and
    [M_crit] is what [newton(f, 1., df)] returns, where [f] is the
    relation of the design with [gamma = 1.4] and [df] its derivative at
    every [M <> 0].  With any other number of columns, five included,
    [M_crit] is 0.6. *)
Theorem critical_mach_needs_nine_columns
    (minimize : (list R -> result R) -> list R -> list (R * R) -> list R)
    (newton : (R -> result R) -> R -> (R -> result R) -> result R)
    (polar : ndarray) :
  rows polar <> [] -> (5 <= ncols polar)%nat ->
  (ncols polar <> 9%nat ->
   exists s, fit_polar minimize newton polar = Ok s /\ M_crit s = 0.6) /\
  (ncols polar = 9%nat ->
   exists cp,
     np_interp 0 (fst (np_unique (column_values polar 0)))
                 (map (Cp_of_row polar) (snd (np_unique (column_values polar 0)))) = Ok cp /\
     fit_polar minimize newton polar =
       rbind (newton (f cp) 1 df) (fun m =>
       Ok (__init__ (fitted minimize polar)
             [("Cm_const"%string, np_mean (column_values polar 4));
              ("M_crit"%string, m)])) /\
     (forall s, fit_polar minimize newton polar = Ok s ->
                newton (f cp) 1 df = Ok (M_crit s)) /\
     (forall M, M <> 0 ->
        f cp M = Ok (f_closed cp M) /\
        exists d, df M = Ok d /\ derivable_pt_lim (f_closed cp) M d)).
Proof.
  intros Hrows Hn. split.
  - intro H9. eexists. split; [ apply fit_polar_default_mach; assumption | reflexivity ].
  - intro H9.
    destruct (np_interp_defined 0
                (fst (np_unique (column_values polar 0)))
                (map (Cp_of_row polar) (snd (np_unique (column_values polar 0)))))
      as [cp Hcp].
    { apply np_unique_nonempty, column_values_nonempty, Hrows. }
    { now rewrite length_map, np_unique_lengths. }
    exists cp.
    assert (Hfit : fit_polar minimize newton polar =
              rbind (newton (f cp) 1 df) (fun m =>
              Ok (__init__ (fitted minimize polar)
                    [("Cm_const"%string, np_mean (column_values polar 4));
                     ("M_crit"%string, m)]))).
    { rewrite (fit_polar_nine_columns minimize newton polar H9).
      rewrite cp_at_zero_interp by lia. rewrite Hcp. reflexivity. }
    split; [ exact Hcp | ]. split; [ exact Hfit | ]. split.
    + intros s Hs. rewrite Hfit in Hs.
      destruct (newton (f cp) 1 df) as [ m | err ]; cbn [rbind] in Hs; [ | discriminate ].
      injection Hs as <-. reflexivity.
    + intros M HM. split; [ apply f_defined, HM | ].
      exists (df_closed M). split; [ apply df_defined, HM | ].
      apply df_closed_is_derivative, HM.
Qed.

Lemma critical_mach_needs_nine_columns_witness :
  exists s,
    fit_polar start_point_minimize first_guess_newton nine_column_polar = Ok s /\
    M_crit s = 1.
Proof.
  destruct (critical_mach_needs_nine_columns
              start_point_minimize first_guess_newton nine_column_polar
              ltac:(discriminate) ltac:(cbn; lia)) as [_ Hnine].
  destruct (Hnine eq_refl) as (cp & _ & Hfit & _).
  eexists. split; [ exact Hfit | reflexivity ].
Defined.

Lemma np_unique_two_angles : np_unique [0; 5] = ([0; 5], [0; 1]%nat).
Proof.
  unfold np_unique, argsort_stable, keep_first_of_runs. cbn. decide_reals. cbn.
  decide_reals. reflexivity.
Qed.

(** C1, as stated, fails: the well-formed polar [five_column_polar]
    carries a fifth column, from which the value at [alpha = 0] would be
    0.2; yet for every optimiser and every root-finder the returned
    Section has [M_crit = 0.6], and 0.6 is not a root of [f] for that
    value. *)
Lemma fifth_column_gives_default_mach :
  well_formed five_column_polar /\
  column_values five_column_polar 4 = [0.2; 0.4] /\
  np_interp 0 (fst (np_unique (column_values five_column_polar 0)))
              (map (fun i => nth 4 (nth i (rows five_column_polar) []) 0)
                   (snd (np_unique (column_values five_column_polar 0)))) = Ok 0.2 /\
  (forall minimize newton,
      exists s, fit_polar minimize newton five_column_polar = Ok s /\ M_crit s = 0.6) /\
  f 0.2 0.6 <> Ok 0.
Proof.
  split; [ exact well_formed_five_column_polar | ].
  split; [ reflexivity | ].
  split.
  - change (column_values five_column_polar 0) with [0; 5].
    rewrite np_unique_two_angles. cbn. decide_reals. reflexivity.
  - split.
    + intros minimize newton. eexists.
      split; [ apply fit_polar_default_mach; cbn; lia | reflexivity ].
    + rewrite f_defined by lra. intro H. injection H as H.
      pose proof (f_closed_negative 0.2 0.6). lra.
Qed.


(** * Further properties of the coefficient model *)

(** The smooth ramp [w * ln (1 + exp (x / w))] of which the stall offset is
    a difference. *)
Definition softplus (w x : R) : R := w * ln (1 + exp (x / w)).

Lemma one_plus_exp_pos x : 0 < 1 + exp x.
Proof. pose proof (exp_pos x). lra. Qed.

Lemma stall_offset_split s alpha :
  stall_offset_cl s alpha =
    softplus (dCl_stall s) (linear_cl s alpha - Cl_max s) -
    softplus (dCl_stall s) (Cl_min s - linear_cl s alpha).
Proof.
  unfold stall_offset_cl, softplus, Rdiv at 1.
  rewrite ln_mult by (try apply Rinv_0_lt_compat; apply one_plus_exp_pos).
  rewrite ln_Rinv by apply one_plus_exp_pos. ring.
Qed.

Lemma softplus_reflect w x : w <> 0 -> softplus w x = x + softplus w (- x).
Proof.
  intro Hw. unfold softplus.
  replace (1 + exp (x / w)) with (exp (x / w) * (1 + exp (- x / w))).
  - rewrite ln_mult by (try apply exp_pos; apply one_plus_exp_pos).
    rewrite ln_exp. field. exact Hw.
  - rewrite Rmult_plus_distr_l, Rmult_1_r, <- exp_plus.
    replace (x / w + - x / w) with 0 by (field; exact Hw).
    rewrite exp_0. ring.
Qed.

Lemma softplus_increasing w x y : 0 < w -> x < y -> softplus w x < softplus w y.
Proof.
  intros Hw Hxy. unfold softplus.
  apply Rmult_lt_compat_l; [ exact Hw | ].
  apply ln_increasing; [ apply one_plus_exp_pos | ].
  apply Rplus_lt_compat_l, exp_increasing.
  unfold Rdiv. apply Rmult_lt_compat_r; [ apply Rinv_0_lt_compat, Hw | exact Hxy ].
Qed.

Lemma softplus_monotone w x y : 0 < w -> x <= y -> softplus w x <= softplus w y.
Proof.
  intros Hw [Hlt | ->]; [ left; now apply softplus_increasing | right; reflexivity ].
Qed.

(** The saturated curve [cl_lin - delta_cl_nl] stays within the stall limits. *)
Lemma saturated_lift_bounds s alpha :
  0 < dCl_stall s -> Cl_min s <= Cl_max s ->
  Cl_min s <= linear_cl s alpha - stall_offset_cl s alpha <= Cl_max s.
Proof.
  intros Hw Hlim. rewrite stall_offset_split.
  set (l := linear_cl s alpha). set (w := dCl_stall s) in *.
  assert (Hw' : w <> 0) by lra. split.
  - rewrite (softplus_reflect w (Cl_min s - l) Hw').
    pose proof (softplus_monotone w (l - Cl_max s) (- (Cl_min s - l)) Hw ltac:(lra)). lra.
  - rewrite (softplus_reflect w (l - Cl_max s) Hw').
    pose proof (softplus_monotone w (Cl_min s - l) (- (l - Cl_max s)) Hw ltac:(lra)). lra.
Qed.

(** X1: [cl_lin] is an affine function of the angle of attack: it
    returns for every Section, vanishes at [alpha = a_0], changes by
    [pi/180 * dClda] per degree, and is strictly increasing when
    [dClda > 0]. *)
Theorem cl_lin_is_affine (s : SectionObj) (alpha beta : R) :
  exists y z,
    returns (cl_lin alpha) s = Ok y /\
    returns (cl_lin beta) s = Ok z /\
    z - y = (beta - alpha) * (PI / 180 * dClda s) /\
    (alpha = a_0 s -> y = 0) /\
    (0 < dClda s -> alpha < beta -> y < z).
Proof.
  exists (linear_cl s alpha), (linear_cl s beta).
  split; [ apply yields_returns, yields_cl_lin | ].
  split; [ apply yields_returns, yields_cl_lin | ].
  unfold linear_cl. split; [ field | ]. split.
  - intros ->. field.
  - intros Hk Hlt. pose proof PI_RGT_0 as Hpi.
    assert (Hc : 0 < PI / 180 * dClda s) by (apply Rmult_lt_0_compat; lra).
    replace ((beta - a_0 s) * PI / 180 * dClda s)
      with ((alpha - a_0 s) * PI / 180 * dClda s + (beta - alpha) * (PI / 180 * dClda s))
      by field.
    assert (0 < (beta - alpha) * (PI / 180 * dClda s))
      by (apply Rmult_lt_0_compat; lra).
    lra.
Qed.

(** X2: for a positive blend width, the stall offset [delta_cl_nl] is
    positive exactly when the linear lift [cl_lin] lies above the midpoint
    of [Cl_min] and [Cl_max], negative exactly when it lies below, and
    zero at the midpoint. *)
Theorem stall_offset_sign (s : SectionObj) (alpha : R) :
  dCl_stall s > 0 ->
  exists d l,
    returns (delta_cl_nl alpha) s = Ok d /\
    returns (cl_lin alpha) s = Ok l /\
    ((Cl_max s + Cl_min s) / 2 < l -> 0 < d) /\
    (l < (Cl_max s + Cl_min s) / 2 -> d < 0) /\
    (l = (Cl_max s + Cl_min s) / 2 -> d = 0).
Proof.
  intro Hw. exists (stall_offset_cl s alpha), (linear_cl s alpha).
  split; [ apply yields_returns, yields_delta_cl_nl; lra | ].
  split; [ apply yields_returns, yields_cl_lin | ].
  rewrite stall_offset_split. set (l := linear_cl s alpha).
  split; [ | split ].
  - intro H. pose proof (softplus_increasing (dCl_stall s) (Cl_min s - l) (l - Cl_max s) Hw).
    lra.
  - intro H. pose proof (softplus_increasing (dCl_stall s) (l - Cl_max s) (Cl_min s - l) Hw).
    lra.
  - intro H. replace (l - Cl_max s) with (Cl_min s - l) by lra. ring.
Qed.

Lemma stall_offset_sign_witness :
  exists d l,
    returns (delta_cl_nl 5) sample_section = Ok d /\
    returns (cl_lin 5) sample_section = Ok l /\
    ((Cl_max sample_section + Cl_min sample_section) / 2 < l -> 0 < d) /\
    (l < (Cl_max sample_section + Cl_min sample_section) / 2 -> d < 0) /\
    (l = (Cl_max sample_section + Cl_min sample_section) / 2 -> d = 0).
Proof. apply (stall_offset_sign sample_section 5). cbn. lra. Defined.

(** X3: for valid parameters with [Cl_min <= Cl_max] and a post-stall
    slope not above the linear slope ([dClda_stall / dClda <= 1]),
    [cl(alpha)] lies between the linear lift blended with [Cl_min] and the
    linear lift blended with [Cl_max], the blend weight being
    [t = dClda_stall / dClda]; with a flat post-stall curve
    ([dClda_stall = 0]) this is [Cl_min <= cl(alpha) <= Cl_max]. *)
Theorem cl_within_stall_limits (s : SectionObj) (alpha : R) :
  dClda s <> 0 -> dCl_stall s > 0 -> Cl_min s <= Cl_max s ->
  dClda_stall s / dClda s <= 1 ->
  exists y l,
    returns (cl alpha) s = Ok y /\
    returns (cl_lin alpha) s = Ok l /\
    dClda_stall s / dClda s * l + (1 - dClda_stall s / dClda s) * Cl_min s <= y /\
    y <= dClda_stall s / dClda s * l + (1 - dClda_stall s / dClda s) * Cl_max s /\
    (dClda_stall s = 0 -> Cl_min s <= y <= Cl_max s).
Proof.
  intros Hk Hw Hlim Ht. exists (cl_closed s alpha), (linear_cl s alpha).
  split; [ apply yields_returns, yields_cl; lra | ].
  split; [ apply yields_returns, yields_cl_lin | ].
  pose proof (saturated_lift_bounds s alpha Hw Hlim) as [Hlo Hhi].
  unfold cl_closed. set (t := dClda_stall s / dClda s) in *.
  set (l := linear_cl s alpha) in *. set (d := stall_offset_cl s alpha) in *.
  assert (H1 : (1 - t) * Cl_min s <= (1 - t) * (l - d))
    by (apply Rmult_le_compat_l; lra).
  assert (H2 : (1 - t) * (l - d) <= (1 - t) * Cl_max s)
    by (apply Rmult_le_compat_l; lra).
  split; [ lra | ]. split; [ lra | ].
  intro H0. assert (t = 0) as Ht0 by (unfold t; rewrite H0; field; exact Hk).
  rewrite Ht0 in *. lra.
Qed.

Lemma cl_within_stall_limits_witness :
  exists y l,
    returns (cl 25) sample_section = Ok y /\
    returns (cl_lin 25) sample_section = Ok l /\
    dClda_stall sample_section / dClda sample_section * l +
      (1 - dClda_stall sample_section / dClda sample_section) * Cl_min sample_section <= y /\
    y <= dClda_stall sample_section / dClda sample_section * l +
      (1 - dClda_stall sample_section / dClda sample_section) * Cl_max sample_section /\
    (dClda_stall sample_section = 0 -> Cl_min sample_section <= y <= Cl_max sample_section).
Proof. apply (cl_within_stall_limits sample_section 25); cbn; lra. Defined.

Lemma linear_cl_mirror s delta :
  linear_cl s (a_0 s - delta) = - linear_cl s (a_0 s + delta).
Proof. unfold linear_cl. field. Qed.

Lemma stall_offset_mirror s delta :
  Cl_min s = - Cl_max s ->
  stall_offset_cl s (a_0 s - delta) = - stall_offset_cl s (a_0 s + delta).
Proof.
  intro Hsym. rewrite !stall_offset_split, linear_cl_mirror, Hsym.
  set (l := linear_cl s (a_0 s + delta)).
  replace (- l - Cl_max s) with (- Cl_max s - l) by ring.
  replace (- Cl_max s - - l) with (l - Cl_max s) by ring. ring.
Qed.

(** X4: with symmetric stall limits ([Cl_min = -Cl_max]) and valid
    parameters, the lift curve is odd about the zero-lift angle:
    [cl(a_0 - delta) = -cl(a_0 + delta)] for every [delta], and
    [cl(a_0) = 0]. *)
Theorem cl_is_odd_about_zero_lift_angle (s : SectionObj) (delta : R) :
  dClda s <> 0 -> dCl_stall s <> 0 -> Cl_min s = - Cl_max s ->
  exists y,
    returns (cl (a_0 s + delta)) s = Ok y /\
    returns (cl (a_0 s - delta)) s = Ok (- y) /\
    returns (cl (a_0 s)) s = Ok 0.
Proof.
  intros Hk Hw Hsym. exists (cl_closed s (a_0 s + delta)).
  split; [ apply yields_returns, yields_cl; assumption | ].
  assert (Hodd : forall d, cl_closed s (a_0 s - d) = - cl_closed s (a_0 s + d)).
  { intro d. unfold cl_closed.
    rewrite linear_cl_mirror, (stall_offset_mirror s d Hsym). ring. }
  split.
  - rewrite (yields_returns _ _ _ (yields_cl s _ Hk Hw)). now rewrite Hodd.
  - rewrite (yields_returns _ _ _ (yields_cl s _ Hk Hw)). f_equal.
    pose proof (Hodd 0) as H0.
    replace (a_0 s - 0) with (a_0 s) in H0 by ring.
    replace (a_0 s + 0) with (a_0 s) in H0 by ring. lra.
Qed.

Lemma cl_is_odd_about_zero_lift_angle_witness :
  exists y,
    returns (cl (a_0 sample_section + 5)) sample_section = Ok y /\
    returns (cl (a_0 sample_section - 5)) sample_section = Ok (- y) /\
    returns (cl (a_0 sample_section)) sample_section = Ok 0.
Proof. apply (cl_is_odd_about_zero_lift_angle sample_section 5); cbn; lra. Defined.

(** X5: for valid parameters the stall penalty [delta_cd_nl] is never
    negative, and when moreover [dCddCl2 >= 0] the drag coefficient
    [cd(alpha)] is never below [Cd_min]. *)
Theorem cd_never_below_Cd_min (s : SectionObj) (alpha : R) :
  dClda s <> 0 -> dCl_stall s <> 0 ->
  exists y p,
    returns (cd alpha) s = Ok y /\
    returns (delta_cd_nl alpha) s = Ok p /\
    0 <= p /\
    (0 <= dCddCl2 s -> Cd_min s <= y).
Proof.
  intros Hk Hw. exists (cd_closed s alpha), (stall_offset_cd s alpha).
  split; [ apply yields_returns, yields_cd; assumption | ].
  split; [ apply yields_returns, yields_delta_cd_nl; assumption | ].
  assert (Hp : 0 <= stall_offset_cd s alpha).
  { unfold stall_offset_cd.
    pose proof (pow2_ge_0 ((1 - dClda_stall s / dClda s) * stall_offset_cl s alpha / dClda s)).
    lra. }
  split; [ exact Hp | ].
  intro H2. unfold cd_closed, linear_cd.
  pose proof (pow2_ge_0 (cl_closed s alpha - Cl_Cd_min s)) as Hsq.
  pose proof (Rmult_le_pos _ _ H2 Hsq). lra.
Qed.

Lemma cd_never_below_Cd_min_witness :
  exists y p,
    returns (cd 5) sample_section = Ok y /\
    returns (delta_cd_nl 5) sample_section = Ok p /\
    0 <= p /\
    (0 <= dCddCl2 sample_section -> Cd_min sample_section <= y).
Proof. apply (cd_never_below_Cd_min sample_section 5); cbn; lra. Defined.

(** X6: when the post-stall slope equals the linear slope (and the
    parameters are valid) there is no stall penalty: [delta_cd_nl]
    returns 0 and [cd(alpha)] is the parabola
    [Cd_min + dCddCl2 * (cl_lin(alpha) - Cl_Cd_min)^2]. *)
Theorem cd_is_parabola_without_stall (s : SectionObj) (alpha : R) :
  dClda s <> 0 -> dCl_stall s <> 0 -> dClda_stall s = dClda s ->
  returns (delta_cd_nl alpha) s = Ok 0 /\
  returns (cd alpha) s =
    Ok (Cd_min s + dCddCl2 s * ((alpha - a_0 s) * PI / 180 * dClda s - Cl_Cd_min s) ^ 2).
Proof.
  intros Hk Hw Heq.
  assert (H1 : 1 - dClda_stall s / dClda s = 0) by (rewrite Heq; field; exact Hk).
  assert (Hp : stall_offset_cd s alpha = 0).
  { unfold stall_offset_cd. rewrite H1. unfold Rdiv. rewrite !Rmult_0_l. simpl. ring. }
  split.
  - rewrite (yields_returns _ _ _ (yields_delta_cd_nl s alpha Hk Hw)). now rewrite Hp.
  - rewrite (yields_returns _ _ _ (yields_cd s alpha Hk Hw)). f_equal.
    unfold cd_closed, linear_cd, cl_closed. rewrite Hp, H1. unfold linear_cl. ring.
Qed.

Lemma cd_is_parabola_without_stall_witness :
  returns (delta_cd_nl 5) unstalled_section = Ok 0 /\
  returns (cd 5) unstalled_section =
    Ok (Cd_min unstalled_section +
        dCddCl2 unstalled_section *
          ((5 - a_0 unstalled_section) * PI / 180 * dClda unstalled_section -
           Cl_Cd_min unstalled_section) ^ 2).
Proof. apply (cd_is_parabola_without_stall unstalled_section 5); cbn; lra. Defined.

(** * Further properties of the fit *)

(** ** The objective *)

Lemma np_sum_nonneg l : Forall (fun x => 0 <= x) l -> 0 <= np_sum l.
Proof.
  induction 1 as [ | x l Hx _ IH ]; simpl; [ lra | ]. unfold np_sum in *. simpl. lra.
Qed.

Lemma np_sum_zero l :
  Forall (fun x => 0 <= x) l -> np_sum l = 0 -> Forall (fun x => x = 0) l.
Proof.
  induction 1 as [ | x l Hx Hl IH ]; intro Hs; [ constructor | ].
  pose proof (np_sum_nonneg l Hl) as Hn. unfold np_sum in *. simpl in Hs.
  constructor; [ lra | apply IH; lra ].
Qed.

Lemma np_square_nonneg u : Forall (fun x => 0 <= x) (np_square u).
Proof.
  unfold np_square. apply Forall_forall. intros x Hx.
  apply in_map_iff in Hx as [y [<- _]]. apply pow2_ge_0.
Qed.

Lemma np_sub_square_zero u v :
  List.length u = List.length v ->
  Forall (fun x => x = 0) (np_square (np_sub u v)) -> u = v.
Proof.
  revert v. induction u as [ | x u IH ]; intros [ | y v ] Hlen Hz; try discriminate.
  - reflexivity.
  - unfold np_square, np_sub in *. simpl in *. inversion Hz as [ | ? ? Hx Hrest ]; subst.
    f_equal; [ | apply IH; [ lia | exact Hrest ] ].
    assert (Hd : x - y = 0).
    { destruct (Rmult_integral _ _ Hx) as [ H | H ];
        [ exact H | rewrite Rmult_1_r in H; exact H ]. }
    lra.
Qed.

Lemma np_mean_nonneg l : Forall (fun x => 0 <= x) l -> l <> [] -> 0 <= np_mean l.
Proof.
  intros Hl Hne. unfold np_mean, Rdiv.
  apply Rmult_le_pos; [ now apply np_sum_nonneg | ].
  left. apply Rinv_0_lt_compat, lt_0_INR. destruct l; [ congruence | simpl; lia ].
Qed.

Lemma np_mean_zero l : l <> [] -> np_mean l = 0 -> np_sum l = 0.
Proof.
  intros Hne Hm. unfold np_mean in Hm.
  assert (Hn : 0 < INR (List.length l))
    by (apply lt_0_INR; destruct l; [ congruence | simpl; lia ]).
  apply (Rmult_eq_compat_r (INR (List.length l))) in Hm.
  unfold Rdiv in Hm. rewrite Rmult_assoc, Rinv_l, Rmult_1_r, Rmult_0_l in Hm by lra.
  exact Hm.
Qed.

Lemma np_sub_self_square_sum u : np_sum (np_square (np_sub u u)) = 0.
Proof.
  induction u as [ | x u IH ]; [ reflexivity | ].
  change (np_sum (np_square (np_sub (x :: u) (x :: u))))
    with ((x - x) ^ 2 + np_sum (np_square (np_sub u u))).
  rewrite IH. ring.
Qed.

Lemma rms_error_nonneg u v : 0 <= rms_error u v.
Proof. unfold rms_error. apply sqrt_pos. Qed.

Lemma rms_error_zero u v :
  u <> [] -> List.length u = List.length v -> (rms_error u v = 0 <-> u = v).
Proof.
  intros Hne Hlen.
  assert (Hsq : np_square (np_sub u v) <> []).
  { destruct u as [ | x u ]; [ congruence | ]. destruct v; discriminate. }
  split.
  - intro H0. unfold rms_error in H0.
    apply sqrt_eq_0 in H0; [ | apply np_mean_nonneg; [ apply np_square_nonneg | exact Hsq ] ].
    apply np_sub_square_zero; [ exact Hlen | ].
    apply np_sum_zero; [ apply np_square_nonneg | now apply np_mean_zero ].
  - intros <-. unfold rms_error.
    replace (np_mean (np_square (np_sub u u))) with 0; [ apply sqrt_0 | ].
    unfold np_mean. rewrite np_sub_self_square_sum. unfold Rdiv. ring.
Qed.

(** X7: on a parameter vector inside the box, and for a polar with at
    least one row, the objective [e] returns a value that is never
    negative, and that is zero exactly when the model's [cl] and [cd] at
    the polar's angles are the polar's [cl] and [cd] columns. *)
Theorem objective_is_zero_iff_exact_fit (a cl_ cd_ y : list R) :
  within y bounds -> a <> [] ->
  List.length cl_ = List.length a -> List.length cd_ = List.length a ->
  exists v,
    e a cl_ cd_ y = Ok v /\ 0 <= v /\
    (v = 0 <->
     returns (vectorized cl a) (__init__ y []) = Ok cl_ /\
     returns (vectorized cd a) (__init__ y []) = Ok cd_).
Proof.
  intros Hy Ha Hcl Hcd.
  destruct (within_bounds_valid y Hy) as [Hk Hw].
  assert (Hk' : dClda (__init__ y []) <> 0) by lra.
  assert (Hw' : dCl_stall (__init__ y []) <> 0) by lra.
  eexists. split; [ apply e_on_valid; assumption | ].
  rewrite (yields_returns _ _ _
             (yields_vectorized cl (cl_closed (__init__ y [])) _ a
                (fun alpha => yields_cl _ alpha Hk' Hw'))).
  rewrite (yields_returns _ _ _
             (yields_vectorized cd (cd_closed (__init__ y [])) _ a
                (fun alpha => yields_cd _ alpha Hk' Hw'))).
  set (mcl := map (cl_closed (__init__ y [])) a).
  set (mcd := map (cd_closed (__init__ y [])) a).
  pose proof (rms_error_nonneg mcl cl_) as H1.
  pose proof (rms_error_nonneg mcd cd_) as H2.
  assert (Hne1 : mcl <> []) by (unfold mcl; destruct a; [ congruence | discriminate ]).
  assert (Hne2 : mcd <> []) by (unfold mcd; destruct a; [ congruence | discriminate ]).
  assert (Hl1 : List.length mcl = List.length cl_) by (unfold mcl; rewrite length_map; lia).
  assert (Hl2 : List.length mcd = List.length cd_) by (unfold mcd; rewrite length_map; lia).
  split; [ lra | ]. split.
  - intro H0.
    assert (rms_error mcl cl_ = 0) as E1 by lra.
    assert (rms_error mcd cd_ = 0) as E2 by lra.
    apply (rms_error_zero _ _ Hne1 Hl1) in E1. apply (rms_error_zero _ _ Hne2 Hl2) in E2.
    now rewrite E1, E2.
  - intros [E1 E2]. injection E1 as E1. injection E2 as E2.
    rewrite (proj2 (rms_error_zero _ _ Hne1 Hl1) E1).
    rewrite (proj2 (rms_error_zero _ _ Hne2 Hl2) E2). lra.
Qed.

Lemma objective_is_zero_iff_exact_fit_witness :
  exists v,
    e [0; 5] [0.1; 0.6] [0.008; 0.012] [0; 6; 1.2; -1.2; 0.5; 0.2; 0.01; 0.1; 0.02] = Ok v /\
    0 <= v /\
    (v = 0 <->
     returns (vectorized cl [0; 5])
             (__init__ [0; 6; 1.2; -1.2; 0.5; 0.2; 0.01; 0.1; 0.02] []) = Ok [0.1; 0.6] /\
     returns (vectorized cd [0; 5])
             (__init__ [0; 6; 1.2; -1.2; 0.5; 0.2; 0.01; 0.1; 0.02] []) = Ok [0.008; 0.012]).
Proof.
  apply objective_is_zero_iff_exact_fit.
  - unfold within, bounds. repeat constructor; cbn; lra.
  - discriminate.
  - reflexivity.
  - reflexivity.
Defined.

(** ** The critical-Mach relation on either side of Mach 1 *)

Lemma pressure_ratio_vs_one M :
  let g := (gamma + 1) / (2 * (1 + 0.5 * (gamma - 1) * M ^ 2)) in
  0 < g /\ (M ^ 2 < 1 -> 1 < g) /\ (M ^ 2 = 1 -> g = 1) /\ (1 < M ^ 2 -> g < 1).
Proof.
  intro g. pose proof (mach_denominator_pos M) as HD.
  set (D := 2 * (1 + 0.5 * (gamma - 1) * M ^ 2)) in *.
  assert (Hg : g * D = gamma + 1) by (unfold g; field; lra).
  assert (Hpos : 0 < g) by (unfold g; apply Rdiv_lt_0_compat; [ unfold gamma; lra | exact HD ]).
  split; [ exact Hpos | ].
  assert (HDv : D = 2 + 0.4 * M ^ 2) by (unfold D, gamma; lra).
  assert (Hgv : gamma + 1 = 2.4) by (unfold gamma; lra).
  repeat split; intro HM; nra.
Qed.

Lemma f_closed_sign cp0 M :
  M <> 0 ->
  (M ^ 2 < 1 -> f_closed cp0 M + cp0 < 0) /\
  (M ^ 2 = 1 -> f_closed cp0 M + cp0 = 0) /\
  (1 < M ^ 2 -> 0 < f_closed cp0 M + cp0).
Proof.
  intro HM. unfold f_closed. rewrite exponent_value.
  destruct (pressure_ratio_vs_one M) as (Hpos & Hsub & Hson & Hsup).
  set (g := (gamma + 1) / (2 * (1 + 0.5 * (gamma - 1) * M ^ 2))) in *.
  assert (Hu : 0 < 2 / (gamma * M ^ 2)).
  { apply Rdiv_lt_0_compat; [ lra | ].
    apply Rmult_lt_0_compat; [ unfold gamma; lra | ].
    pose proof (pow2_ge_0 M). pose proof (pow_nonzero M 2 HM). lra. }
  unfold Rpower. split; [ | split ]; intro H.
  - pose proof (ln_increasing 1 g Rlt_0_1 (Hsub H)) as Hln. rewrite ln_1 in Hln.
    assert (exp (-3.5 * ln g) < 1)
      by (apply Rlt_le_trans with (exp 0); [ apply exp_increasing; nra | rewrite exp_0; lra ]).
    nra.
  - rewrite (Hson H), ln_1, Rmult_0_r, exp_0. ring.
  - pose proof (ln_increasing g 1 Hpos (Hsup H)) as Hln. rewrite ln_1 in Hln.
    assert (1 < exp (-3.5 * ln g))
      by (apply Rle_lt_trans with (exp 0); [ rewrite exp_0; lra | apply exp_increasing; nra ]).
    nra.
Qed.

Lemma f_raises_at_zero cp0 : f cp0 0 = Raise ZeroDivisionError.
Proof.
  unfold f. replace (gamma * 0 ^ 2) with 0 by (simpl; ring).
  now rewrite pydiv_zero.
Qed.

(** X8: a root of the critical-Mach relation lies on the side of Mach 1
    that the sign of the pressure coefficient selects: if [f(M)] returns
    0 then [M] is not 0, and [M^2 < 1] when [cp < 0], [M^2 = 1] when
    [cp = 0], [M^2 > 1] when [cp > 0]. *)
Theorem critical_mach_root_side (cp0 M : R) :
  f cp0 M = Ok 0 ->
  M <> 0 /\
  (cp0 < 0 -> M ^ 2 < 1) /\
  (cp0 = 0 -> M ^ 2 = 1) /\
  (0 < cp0 -> 1 < M ^ 2).
Proof.
  intro Hroot.
  assert (HM : M <> 0).
  { intros ->. rewrite f_raises_at_zero in Hroot. discriminate. }
  rewrite (f_defined cp0 M HM) in Hroot. injection Hroot as Hroot.
  destruct (f_closed_sign cp0 M HM) as (Hsub & Hson & Hsup).
  split; [ exact HM | ].
  destruct (Rtotal_order (M ^ 2) 1) as [ Hlt | [ Heq | Hgt ] ].
  - specialize (Hsub Hlt). repeat split; intro; lra.
  - specialize (Hson Heq). repeat split; intro; lra.
  - specialize (Hsup Hgt). repeat split; intro; lra.
Qed.

Lemma f_at_mach_one cp0 : f cp0 1 = Ok (- cp0).
Proof.
  rewrite f_defined by lra. f_equal.
  destruct (f_closed_sign cp0 1 ltac:(lra)) as (_ & Hson & _).
  specialize (Hson ltac:(simpl; lra)). lra.
Qed.

Lemma critical_mach_root_side_witness :
  1 <> 0 /\ (0 < 0 -> 1 ^ 2 < 1) /\ (0 = 0 -> 1 ^ 2 = 1) /\ (0 < 0 -> 1 < 1 ^ 2).
Proof.
  apply (critical_mach_root_side 0 1). rewrite f_at_mach_one. f_equal. ring.
Defined.

Lemma df_raises_at_zero : df 0 = Raise ZeroDivisionError.
Proof.
  unfold df. replace (gamma * 0 ^ 3) with 0 by (simpl; ring).
  now rewrite pydiv_zero.
Qed.

Lemma df_closed_at_mach_one : df_closed 1 = 5 / 3.
Proof.
  unfold df_closed.
  destruct (pressure_ratio_vs_one 1) as (_ & _ & Hone & _).
  rewrite (Hone ltac:(simpl; lra)).
  unfold Rpower. rewrite ln_1, !Rmult_0_r, exp_0.
  rewrite exponent_value.
  replace (2 * (1 + 0.5 * (gamma - 1) * 1 ^ 2)) with (12 / 5) by (unfold gamma; simpl; lra).
  replace (gamma * 1 ^ 3) with (7 / 5) by (unfold gamma; simpl; lra).
  replace (gamma * 1 ^ 2) with (7 / 5) by (unfold gamma; simpl; lra).
  replace (gamma + 1) with (12 / 5) by (unfold gamma; lra).
  replace (gamma - 1) with (2 / 5) by (unfold gamma; lra).
  replace (-3.5) with (- (7 / 2)) by lra.
  field.
Qed.

(** X9: at the start point [M = 1] of the root-finder, [f] returns
    [-cp] and [df] returns 5/3, whatever the pressure coefficient; at
    [M = 0] both raise [ZeroDivisionError], and at every other [M] both
    return. *)
Theorem relation_at_start_point (cp0 : R) :
  f cp0 1 = Ok (- cp0) /\
  df 1 = Ok (5 / 3) /\
  f cp0 0 = Raise ZeroDivisionError /\
  df 0 = Raise ZeroDivisionError /\
  (forall M, M <> 0 -> exists v d, f cp0 M = Ok v /\ df M = Ok d).
Proof.
  split; [ apply f_at_mach_one | ].
  split; [ rewrite df_defined by lra; f_equal; apply df_closed_at_mach_one | ].
  split; [ apply f_raises_at_zero | ].
  split; [ apply df_raises_at_zero | ].
  intros M HM. exists (f_closed cp0 M), (df_closed M).
  split; [ apply f_defined, HM | apply df_defined, HM ].
Qed.

(** ** The interpolated pressure coefficient stays in range *)

Lemma interp_from_bounds lo hi x x0 f0 xp fp :
  StronglySorted Rlt (x0 :: xp) -> x0 <= x ->
  lo <= f0 <= hi -> Forall (fun v => lo <= v <= hi) fp ->
  lo <= interp_from x x0 f0 xp fp <= hi.
Proof.
  revert x0 f0 fp. induction xp as [ | x1 xp IH ]; intros x0 f0 fp Hs Hx Hf0 Hfp.
  - simpl. exact Hf0.
  - destruct fp as [ | f1 fp ]; [ simpl; exact Hf0 | ].
    inversion Hs as [ | ? ? Hs' Hall ]; subst.
    assert (H01 : x0 < x1) by (inversion Hall; assumption).
    inversion Hfp as [ | ? ? Hf1 Hfp' ]; subst. simpl.
    destruct (Rlt_dec x x1) as [ Hlt | Hge ].
    + destruct (Req_dec_T x0 x) as [ _ | _ ]; [ exact Hf0 | ].
      set (t := (x - x0) / (x1 - x0)).
      assert (Ht : 0 <= t <= 1).
      { unfold t. split.
        - apply Rmult_le_pos; [ lra | left; apply Rinv_0_lt_compat; lra ].
        - apply (Rmult_le_reg_r (x1 - x0)); [ lra | ].
          unfold Rdiv. rewrite Rmult_assoc, Rinv_l by lra. lra. }
      replace ((f1 - f0) / (x1 - x0) * (x - x0) + f0) with (f0 + t * (f1 - f0))
        by (unfold t; field; lra).
      nra.
    + apply IH; [ exact Hs' | lra | exact Hf1 | exact Hfp' ].
Qed.

Lemma np_interp_bounds lo hi x xp fp v :
  StronglySorted Rlt xp -> Forall (fun y => lo <= y <= hi) fp ->
  np_interp x xp fp = Ok v -> lo <= v <= hi.
Proof.
  intros Hs Hfp Hv. destruct xp as [ | x0 xp ]; [ discriminate | ].
  destruct fp as [ | f0 fp ]; [ discriminate | ].
  inversion Hfp as [ | ? ? Hf0 Hfp' ]; subst. simpl in Hv.
  destruct (List.length xp =? List.length fp)%nat; [ | discriminate ].
  destruct (Rlt_dec x x0) as [ Hlt | Hge ]; injection Hv as <-.
  - exact Hf0.
  - apply interp_from_bounds; [ exact Hs | lra | exact Hf0 | exact Hfp' ].
Qed.

(** X10: for a polar with at least six columns and at least one row, the
    pressure coefficient that [fit_polar] estimates at [alpha = 0] is
    defined and lies within any bounds that hold for every entry of the
    column [polar[:, 5]]: interpolation never leaves the range of the
    samples, also when 0 lies outside the range of the angles. *)
Theorem cp_at_zero_within_range (polar : ndarray) (lo hi : R) :
  (6 <= ncols polar)%nat -> rows polar <> [] ->
  (forall i, (i < List.length (rows polar))%nat -> lo <= Cp_of_row polar i <= hi) ->
  exists cp, cp_at_zero polar = Ok cp /\ lo <= cp <= hi.
Proof.
  intros Hn Hrows Hrange.
  rewrite (cp_at_zero_interp polar Hn).
  set (angles := column_values polar 0).
  destruct (np_interp_defined 0 (fst (np_unique angles))
              (map (Cp_of_row polar) (snd (np_unique angles)))) as [cp Hcp].
  { apply np_unique_nonempty, column_values_nonempty, Hrows. }
  { now rewrite length_map, np_unique_lengths. }
  exists cp. split; [ exact Hcp | ].
  apply (np_interp_bounds lo hi _ _ _ _ (kept_sorted angles)) in Hcp; [ exact Hcp | ].
  apply Forall_forall. intros v Hv.
  apply in_map_iff in Hv as [i [<- Hi]]. apply Hrange.
  apply unique_indices_in_range in Hi. unfold angles, column_values in Hi.
  now rewrite length_map in Hi.
Qed.

Lemma cp_at_zero_within_range_witness :
  exists cp, cp_at_zero nine_column_polar = Ok cp /\ -3 <= cp <= -1.
Proof.
  apply cp_at_zero_within_range.
  - cbn. lia.
  - discriminate.
  - intros i Hi. destruct i as [ | [ | [ | i ] ] ]; cbn in *; try lra. lia.
Defined.

(** ** The columns that [fit_polar] reads *)

(** [five_column_polar] with other entries in its fourth column. *)
Definition five_column_polar_other_moment : ndarray :=
  mkArray 5 [[0; 0.1; 0.008; 0.3; 0.2];
             [5; 0.6; 0.012; -0.7; 0.4]].

Lemma mapM_ext {A B : Type} (g h : A -> result B) l :
  (forall x, g x = h x) -> mapM g l = mapM h l.
Proof.
  intro Hgh. induction l as [ | x l IH ]; simpl; [ reflexivity | ].
  now rewrite Hgh, IH.
Qed.

Lemma entry_by_column polar j i :
  entry polar j i =
    match nth_error (column_values polar j) i with
    | Some v => Ok v
    | None => Raise IndexError
    end.
Proof.
  unfold entry, column_values. rewrite nth_error_map.
  destruct (nth_error (rows polar) i); reflexivity.
Qed.

Lemma column_same polar polar' j :
  ncols polar = ncols polar' -> column_values polar j = column_values polar' j ->
  column polar j = column polar' j.
Proof. intros Hn Hc. unfold column. now rewrite Hn, Hc. Qed.

Lemma cp_at_zero_same polar polar' :
  ncols polar = ncols polar' ->
  column_values polar 0 = column_values polar' 0 ->
  column_values polar 5 = column_values polar' 5 ->
  cp_at_zero polar = cp_at_zero polar'.
Proof.
  intros Hn H0 H5. unfold cp_at_zero.
  rewrite (column_same polar polar' 0 Hn H0).
  destruct (column polar' 0) as [ col0 | err ]; cbn [rbind]; [ | reflexivity ].
  unfold take. rewrite Hn.
  rewrite (mapM_ext (entry polar 5) (entry polar' 5));
    [ reflexivity | ].
  intro i. now rewrite !entry_by_column, H5.
Qed.

(** X11: the outcome of [fit_polar] depends on the polar only through its
    number of columns and its columns 0, 1, 2, 4 and 5: two polars that
    agree on these give the same result, Section or exception.  The
    fourth column (index 3) and the columns from index 6 on are never
    read. *)
Theorem fit_polar_reads_five_columns
    (minimize : (list R -> result R) -> list R -> list (R * R) -> list R)
    (newton : (R -> result R) -> R -> (R -> result R) -> result R)
    (polar polar' : ndarray) :
  ncols polar = ncols polar' ->
  (forall j, In j [0; 1; 2; 4; 5]%nat -> column_values polar j = column_values polar' j) ->
  fit_polar minimize newton polar = fit_polar minimize newton polar'.
Proof.
  intros Hn Hcols. unfold fit_polar.
  rewrite (column_same polar polar' 0 Hn) by (apply Hcols; simpl; auto).
  rewrite (column_same polar polar' 1 Hn) by (apply Hcols; simpl; auto).
  rewrite (column_same polar polar' 2 Hn) by (apply Hcols; simpl; auto).
  rewrite (column_same polar polar' 4 Hn) by (apply Hcols; simpl; auto 6).
  rewrite (cp_at_zero_same polar polar' Hn)
    by (apply Hcols; simpl; auto 6).
  now rewrite Hn.
Qed.

Lemma fit_polar_reads_five_columns_witness :
  fit_polar start_point_minimize first_guess_newton five_column_polar =
  fit_polar start_point_minimize first_guess_newton five_column_polar_other_moment.
Proof.
  apply fit_polar_reads_five_columns.
  - reflexivity.
  - intros j Hj. simpl in Hj.
    destruct Hj as [ <- | [ <- | [ <- | [ <- | [ <- | [] ] ] ] ] ]; reflexivity.
Defined.


(** * [Section.from_dict] *)

(** The thirteen instance attributes that [__init__] creates. *)
Inductive slot : Set :=
| slot_a_0 | slot_dClda | slot_Cl_max | slot_Cl_min | slot_dClda_stall
| slot_dCl_stall | slot_Cd_min | slot_Cl_Cd_min | slot_dCddCl2
| slot_Cm_const | slot_M_crit | slot_Re | slot_Re_exp.

Definition slot_name (a : slot) : string :=
  match a with
  | slot_a_0 => "a_0" | slot_dClda => "dClda" | slot_Cl_max => "Cl_max"
  | slot_Cl_min => "Cl_min" | slot_dClda_stall => "dClda_stall"
  | slot_dCl_stall => "dCl_stall" | slot_Cd_min => "Cd_min"
  | slot_Cl_Cd_min => "Cl_Cd_min" | slot_dCddCl2 => "dCddCl2"
  | slot_Cm_const => "Cm_const" | slot_M_crit => "M_crit"
  | slot_Re => "Re" | slot_Re_exp => "Re_exp"
  end.

Definition all_slots : list slot :=
  [slot_a_0; slot_dClda; slot_Cl_max; slot_Cl_min; slot_dClda_stall;
   slot_dCl_stall; slot_Cd_min; slot_Cl_Cd_min; slot_dCddCl2;
   slot_Cm_const; slot_M_crit; slot_Re; slot_Re_exp].

(** The instance attribute that a name denotes, if any. *)
Definition slot_of_name (k : string) : option slot :=
  find (fun a => String.eqb k (slot_name a)) all_slots.

(** [getattr(sec, name)] and [setattr(sec, name, value)] on an instance
    attribute. *)
Definition slot_get (a : slot) (s : SectionObj) : R :=
  match a with
  | slot_a_0 => a_0 s | slot_dClda => dClda s | slot_Cl_max => Cl_max s
  | slot_Cl_min => Cl_min s | slot_dClda_stall => dClda_stall s
  | slot_dCl_stall => dCl_stall s | slot_Cd_min => Cd_min s
  | slot_Cl_Cd_min => Cl_Cd_min s | slot_dCddCl2 => dCddCl2 s
  | slot_Cm_const => Cm_const s | slot_M_crit => M_crit s
  | slot_Re => Re s | slot_Re_exp => Re_exp s
  end.

Definition slot_set (a : slot) (v : R) (s : SectionObj) : SectionObj :=
  match a with
  | slot_a_0 =>
      mkSection v (dClda s) (Cl_max s) (Cl_min s) (dClda_stall s) (dCl_stall s)
                (Cd_min s) (Cl_Cd_min s) (dCddCl2 s) (Cm_const s) (M_crit s) (Re s) (Re_exp s)
  | slot_dClda =>
      mkSection (a_0 s) v (Cl_max s) (Cl_min s) (dClda_stall s) (dCl_stall s)
                (Cd_min s) (Cl_Cd_min s) (dCddCl2 s) (Cm_const s) (M_crit s) (Re s) (Re_exp s)
  | slot_Cl_max =>
      mkSection (a_0 s) (dClda s) v (Cl_min s) (dClda_stall s) (dCl_stall s)
                (Cd_min s) (Cl_Cd_min s) (dCddCl2 s) (Cm_const s) (M_crit s) (Re s) (Re_exp s)
  | slot_Cl_min =>
      mkSection (a_0 s) (dClda s) (Cl_max s) v (dClda_stall s) (dCl_stall s)
                (Cd_min s) (Cl_Cd_min s) (dCddCl2 s) (Cm_const s) (M_crit s) (Re s) (Re_exp s)
  | slot_dClda_stall =>
      mkSection (a_0 s) (dClda s) (Cl_max s) (Cl_min s) v (dCl_stall s)
                (Cd_min s) (Cl_Cd_min s) (dCddCl2 s) (Cm_const s) (M_crit s) (Re s) (Re_exp s)
  | slot_dCl_stall =>
      mkSection (a_0 s) (dClda s) (Cl_max s) (Cl_min s) (dClda_stall s) v
                (Cd_min s) (Cl_Cd_min s) (dCddCl2 s) (Cm_const s) (M_crit s) (Re s) (Re_exp s)
  | slot_Cd_min =>
      mkSection (a_0 s) (dClda s) (Cl_max s) (Cl_min s) (dClda_stall s) (dCl_stall s)
                v (Cl_Cd_min s) (dCddCl2 s) (Cm_const s) (M_crit s) (Re s) (Re_exp s)
  | slot_Cl_Cd_min =>
      mkSection (a_0 s) (dClda s) (Cl_max s) (Cl_min s) (dClda_stall s) (dCl_stall s)
                (Cd_min s) v (dCddCl2 s) (Cm_const s) (M_crit s) (Re s) (Re_exp s)
  | slot_dCddCl2 =>
      mkSection (a_0 s) (dClda s) (Cl_max s) (Cl_min s) (dClda_stall s) (dCl_stall s)
                (Cd_min s) (Cl_Cd_min s) v (Cm_const s) (M_crit s) (Re s) (Re_exp s)
  | slot_Cm_const =>
      mkSection (a_0 s) (dClda s) (Cl_max s) (Cl_min s) (dClda_stall s) (dCl_stall s)
                (Cd_min s) (Cl_Cd_min s) (dCddCl2 s) v (M_crit s) (Re s) (Re_exp s)
  | slot_M_crit =>
      mkSection (a_0 s) (dClda s) (Cl_max s) (Cl_min s) (dClda_stall s) (dCl_stall s)
                (Cd_min s) (Cl_Cd_min s) (dCddCl2 s) (Cm_const s) v (Re s) (Re_exp s)
  | slot_Re =>
      mkSection (a_0 s) (dClda s) (Cl_max s) (Cl_min s) (dClda_stall s) (dCl_stall s)
                (Cd_min s) (Cl_Cd_min s) (dCddCl2 s) (Cm_const s) (M_crit s) v (Re_exp s)
  | slot_Re_exp =>
      mkSection (a_0 s) (dClda s) (Cl_max s) (Cl_min s) (dClda_stall s) (dCl_stall s)
                (Cd_min s) (Cl_Cd_min s) (dCddCl2 s) (Cm_const s) (M_crit s) (Re s) v
  end.

(** The instance dictionary of a Section, [vars(sec)], in the order in
    which [__init__] assigns the attributes. *)
Definition vars (s : SectionObj) : list (string * R) :=
  map (fun a => (slot_name a, slot_get a s)) all_slots.

Section FromDict.

(** [hasattr(sec, key)] holds for the thirteen instance attributes and for
    the names that the class defines or inherits (its methods, and the
    attributes of [object], which vary with the interpreter):
    [class_attribute] tells the latter.  [setattr] on such a name either
    stores an instance attribute that shadows it or raises (as for
    [__class__]): [shadow] tells which. *)
Variable class_attribute : string -> bool.
Variable shadow : string -> R -> result unit.

(** The loop [for key, value in d.items()], on the Section and the
    instance attributes stored beside the thirteen. *)
Fixpoint from_dict_loop (items : list (string * R))
    (sec : SectionObj) (others : list (string * R))
  : result (SectionObj * list (string * R)) :=
  match items with
  | [] => Ok (sec, others)
  | (key, value) :: rest =>
      match slot_of_name key with
      | Some a => from_dict_loop rest (slot_set a value sec) others
      | None =>
          if class_attribute key
          then match shadow key value with
               | Ok _ => from_dict_loop rest sec ((key, value) :: others)
               | Raise err => Raise err
               end
          else from_dict_loop rest sec others
      end
  end.

(** [Section.from_dict(d)] *)
Definition from_dict (d : list (string * R)) : result (SectionObj * list (string * R)) :=
  from_dict_loop d (__init__ [] []) [].

End FromDict.

(** The value a dictionary holds for an attribute, or the default 0. *)
Definition dict_value (d : list (string * R)) (a : slot) : R :=
  match kw_get (slot_name a) d with
  | Some v => v
  | None => 0
  end.

From Stdlib Require Import Sorting.Permutation.

Lemma slot_of_name_name a : slot_of_name (slot_name a) = Some a.
Proof. destruct a; reflexivity. Qed.

Lemma slot_of_name_some k a : slot_of_name k = Some a -> k = slot_name a.
Proof.
  unfold slot_of_name. intro H. apply find_some in H as [_ H].
  now apply String.eqb_eq in H.
Qed.

Lemma slot_name_injective a b : slot_name a = slot_name b -> a = b.
Proof.
  intro H. pose proof (slot_of_name_name a) as Ha. rewrite H, slot_of_name_name in Ha.
  congruence.
Qed.

Lemma slot_get_set_same a v s : slot_get a (slot_set a v s) = v.
Proof. destruct a; reflexivity. Qed.

Lemma slot_get_set_other a b v s : a <> b -> slot_get a (slot_set b v s) = slot_get a s.
Proof. intro H. destruct a, b; try reflexivity; now elim H. Qed.

Lemma section_by_slots s s' : (forall a, slot_get a s = slot_get a s') -> s = s'.
Proof.
  intro H. destruct s, s'.
  pose proof (H slot_a_0). pose proof (H slot_dClda). pose proof (H slot_Cl_max).
  pose proof (H slot_Cl_min). pose proof (H slot_dClda_stall). pose proof (H slot_dCl_stall).
  pose proof (H slot_Cd_min). pose proof (H slot_Cl_Cd_min). pose proof (H slot_dCddCl2).
  pose proof (H slot_Cm_const). pose proof (H slot_M_crit). pose proof (H slot_Re).
  pose proof (H slot_Re_exp). simpl in *. congruence.
Qed.

Lemma kw_get_absent k d : ~ In k (map fst d) -> kw_get k d = None.
Proof.
  induction d as [ | [k' v] d IH ]; simpl; intro H; [ reflexivity | ].
  destruct (String.eqb_spec k k') as [ -> | _ ]; [ elim H; now left | ].
  apply IH. tauto.
Qed.

Lemma kw_get_in k v d : kw_get k d = Some v -> In (k, v) d.
Proof.
  induction d as [ | [k' v'] d IH ]; simpl; [ discriminate | ].
  destruct (String.eqb_spec k k') as [ -> | _ ].
  - intro H. injection H as ->. now left.
  - intro H. right. now apply IH.
Qed.

Lemma in_kw_get k v d : NoDup (map fst d) -> In (k, v) d -> kw_get k d = Some v.
Proof.
  induction d as [ | [k' v'] d IH ]; simpl; intros Hnd Hin; [ contradiction | ].
  inversion Hnd as [ | ? ? Hk' Hnd' ]; subst.
  destruct Hin as [ Heq | Hin ].
  - injection Heq as -> ->. now rewrite String.eqb_refl.
  - destruct (String.eqb_spec k k') as [ -> | _ ]; [ | now apply IH ].
    elim Hk'. apply in_map_iff. exists (k', v). auto.
Qed.

Lemma kw_get_permutation k d d' :
  NoDup (map fst d) -> Permutation d d' -> kw_get k d = kw_get k d'.
Proof.
  intros Hnd Hp.
  assert (Hnd' : NoDup (map fst d'))
    by (eapply Permutation_NoDup; [ apply Permutation_map, Hp | exact Hnd ]).
  destruct (kw_get k d) as [ v | ] eqn:Hd.
  - symmetry. apply in_kw_get; [ exact Hnd' | ].
    eapply Permutation_in; [ exact Hp | now apply kw_get_in ].
  - destruct (kw_get k d') as [ v | ] eqn:Hd'; [ | reflexivity ].
    apply kw_get_in in Hd'. apply (Permutation_in _ (Permutation_sym Hp)) in Hd'.
    apply (in_kw_get _ _ _ Hnd) in Hd'. congruence.
Qed.

Section FromDictFacts.

Variable class_attribute : string -> bool.
Variable shadow : string -> R -> result unit.

Lemma from_dict_loop_slots items : forall sec others s o,
  NoDup (map fst items) ->
  from_dict_loop class_attribute shadow items sec others = Ok (s, o) ->
  forall a,
    slot_get a s =
      match kw_get (slot_name a) items with
      | Some v => v
      | None => slot_get a sec
      end.
Proof.
  induction items as [ | [key value] rest IH ]; intros sec others s o Hnd Hrun a.
  - simpl in *. now injection Hrun as <- <-.
  - inversion Hnd as [ | ? ? Hkey Hnd' ]; subst. simpl in Hrun. cbn [kw_get].
    destruct (slot_of_name key) as [ b | ] eqn:Hb.
    + apply slot_of_name_some in Hb. subst key.
      rewrite (IH _ _ _ _ Hnd' Hrun a).
      destruct (String.eqb_spec (slot_name a) (slot_name b)) as [ Heq | Hne ].
      * apply slot_name_injective in Heq. subst b.
        rewrite (kw_get_absent _ _ Hkey). apply slot_get_set_same.
      * destruct (kw_get (slot_name a) rest); [ reflexivity | ].
        apply slot_get_set_other. congruence.
    + assert (Hne : String.eqb (slot_name a) key = false).
      { apply String.eqb_neq. intros <-. rewrite slot_of_name_name in Hb. discriminate. }
      rewrite Hne.
      destruct (class_attribute key).
      * destruct (shadow key value); [ | discriminate ].
        exact (IH _ _ _ _ Hnd' Hrun a).
      * exact (IH _ _ _ _ Hnd' Hrun a).
Qed.

Lemma from_dict_loop_returns items : forall sec others,
  (forall k, In k (map fst items) -> slot_of_name k = None -> class_attribute k = false) ->
  exists s, from_dict_loop class_attribute shadow items sec others = Ok (s, others).
Proof.
  induction items as [ | [key value] rest IH ]; intros sec others Hkeys.
  - now exists sec.
  - simpl. destruct (slot_of_name key) as [ b | ] eqn:Hb.
    + apply IH. intros k Hk. apply Hkeys. now right.
    + rewrite (Hkeys key (or_introl eq_refl) Hb).
      apply IH. intros k Hk. apply Hkeys. now right.
Qed.

Lemma from_dict_loop_skips items : forall sec others,
  from_dict_loop class_attribute shadow items sec others =
  from_dict_loop class_attribute shadow
    (filter (fun kv => match slot_of_name (fst kv) with
                       | Some _ => true
                       | None => class_attribute (fst kv)
                       end) items) sec others.
Proof.
  induction items as [ | [key value] rest IH ]; intros sec others; [ reflexivity | ].
  simpl. destruct (slot_of_name key) as [ b | ] eqn:Hb.
  - simpl. rewrite Hb. apply IH.
  - destruct (class_attribute key) eqn:Hc.
    + simpl. rewrite Hb, Hc. destruct (shadow key value); [ apply IH | reflexivity ].
    + apply IH.
Qed.

End FromDictFacts.

(** An interpreter in which no key of the dictionaries below names a
    method or an inherited attribute. *)
Definition no_class_attribute (k : string) : bool := false.

Definition shadow_always (k : string) (v : R) : result unit := Ok tt.

(** A dictionary with a positional name, a keyword name and a name that is
    no attribute. *)
Definition sample_dict : list (string * R) :=
  [("dClda"%string, 6); ("thickness"%string, 0.12); ("M_crit"%string, 0.7)].

(** X12: for a dictionary (its keys are distinct), whenever
    [Section.from_dict(d)] returns, each of the thirteen attributes of the
    Section is the value [d] holds under the attribute's name, and 0 when
    [d] has no such key; on [Cm_const], [M_crit], [Re] and [Re_exp] it
    agrees with a Section constructed with [d] as its keyword arguments,
    which ignores the nine other names. *)
Theorem from_dict_takes_values_by_name
    (class_attribute : string -> bool) (shadow : string -> R -> result unit)
    (d : list (string * R)) (s : SectionObj) (others : list (string * R)) :
  NoDup (map fst d) ->
  from_dict class_attribute shadow d = Ok (s, others) ->
  (forall a, slot_get a s = dict_value d a) /\
  (forall args,
      Cm_const s = Cm_const (__init__ args d) /\
      M_crit s = M_crit (__init__ args d) /\
      Re s = Re (__init__ args d) /\
      Re_exp s = Re_exp (__init__ args d)).
Proof.
  intros Hnd Hrun.
  assert (Hslots : forall a, slot_get a s = dict_value d a).
  { intro a. unfold from_dict in Hrun.
    rewrite (from_dict_loop_slots _ _ _ _ _ _ _ Hnd Hrun a). unfold dict_value.
    destruct (kw_get (slot_name a) d); [ reflexivity | ]. destruct a; reflexivity. }
  split; [ exact Hslots | ].
  intro args. repeat split.
  - exact (Hslots slot_Cm_const).
  - exact (Hslots slot_M_crit).
  - exact (Hslots slot_Re).
  - exact (Hslots slot_Re_exp).
Qed.

Lemma NoDup_sample_dict : NoDup (map fst sample_dict).
Proof.
  simpl. repeat constructor; simpl; intuition discriminate.
Qed.

Lemma from_dict_takes_values_by_name_witness :
  (forall a,
      slot_get a (mkSection 0 6 0 0 0 0 0 0 0 0 0.7 0 0) = dict_value sample_dict a) /\
  (forall args,
      Cm_const (mkSection 0 6 0 0 0 0 0 0 0 0 0.7 0 0) = Cm_const (__init__ args sample_dict) /\
      M_crit (mkSection 0 6 0 0 0 0 0 0 0 0 0.7 0 0) = M_crit (__init__ args sample_dict) /\
      Re (mkSection 0 6 0 0 0 0 0 0 0 0 0.7 0 0) = Re (__init__ args sample_dict) /\
      Re_exp (mkSection 0 6 0 0 0 0 0 0 0 0 0.7 0 0) = Re_exp (__init__ args sample_dict)).
Proof.
  apply (from_dict_takes_values_by_name no_class_attribute shadow_always sample_dict
           (mkSection 0 6 0 0 0 0 0 0 0 0 0.7 0 0) []).
  - exact NoDup_sample_dict.
  - reflexivity.
Defined.

(** X13: [Section.from_dict] skips, without an error, every key for which
    [hasattr] fails: dropping those keys from [d] does not change the
    outcome; when no key names a method or an inherited attribute the call
    returns and stores nothing beside the thirteen attributes; and
    [from_dict({})] is [Section()]. *)
Theorem from_dict_skips_unknown_keys
    (class_attribute : string -> bool) (shadow : string -> R -> result unit)
    (d : list (string * R)) :
  from_dict class_attribute shadow d =
    from_dict class_attribute shadow
      (filter (fun kv => match slot_of_name (fst kv) with
                         | Some _ => true
                         | None => class_attribute (fst kv)
                         end) d) /\
  ((forall k, In k (map fst d) -> slot_of_name k = None -> class_attribute k = false) ->
   exists s, from_dict class_attribute shadow d = Ok (s, [])) /\
  from_dict class_attribute shadow [] = Ok (__init__ [] [], []).
Proof.
  split; [ apply from_dict_loop_skips | ].
  split; [ apply from_dict_loop_returns | reflexivity ].
Qed.

(** X14: the outcome of [Section.from_dict] does not depend on the order
    of the items of the dictionary: when no key names a method or an
    inherited attribute, two orderings of the same items give the same
    Section. *)
Theorem from_dict_ignores_item_order
    (class_attribute : string -> bool) (shadow : string -> R -> result unit)
    (d d' : list (string * R)) :
  NoDup (map fst d) -> Permutation d d' ->
  (forall k, In k (map fst d) -> slot_of_name k = None -> class_attribute k = false) ->
  exists s,
    from_dict class_attribute shadow d = Ok (s, []) /\
    from_dict class_attribute shadow d' = Ok (s, []).
Proof.
  intros Hnd Hp Hkeys.
  assert (Hnd' : NoDup (map fst d'))
    by (eapply Permutation_NoDup; [ apply Permutation_map, Hp | exact Hnd ]).
  assert (Hkeys' : forall k, In k (map fst d') -> slot_of_name k = None ->
                             class_attribute k = false).
  { intros k Hk. apply Hkeys.
    eapply Permutation_in; [ apply Permutation_sym, Permutation_map, Hp | exact Hk ]. }
  destruct (from_dict_loop_returns class_attribute shadow d (__init__ [] []) [] Hkeys)
    as [s Hs].
  destruct (from_dict_loop_returns class_attribute shadow d' (__init__ [] []) [] Hkeys')
    as [s' Hs'].
  exists s. split; [ exact Hs | ].
  replace s with s'; [ exact Hs' | ].
  apply section_by_slots. intro a.
  rewrite (from_dict_loop_slots _ _ _ _ _ _ _ Hnd' Hs' a).
  rewrite (from_dict_loop_slots _ _ _ _ _ _ _ Hnd Hs a).
  now rewrite (kw_get_permutation _ _ _ Hnd Hp).
Qed.

Lemma from_dict_ignores_item_order_witness :
  exists s,
    from_dict no_class_attribute shadow_always sample_dict = Ok (s, []) /\
    from_dict no_class_attribute shadow_always (rev sample_dict) = Ok (s, []).
Proof.
  apply from_dict_ignores_item_order.
  - exact NoDup_sample_dict.
  - apply Permutation_rev.
  - reflexivity.
Defined.

(** X15: [Section.from_dict] rebuilds a Section from its instance
    dictionary: for every Section [sec], [from_dict(vars(sec))] returns a
    Section with the same thirteen attributes, and nothing else is
    stored. *)
Theorem from_dict_of_vars
    (class_attribute : string -> bool) (shadow : string -> R -> result unit)
    (s : SectionObj) :
  from_dict class_attribute shadow (vars s) = Ok (s, []).
Proof.
  destruct (from_dict_loop_returns class_attribute shadow (vars s) (__init__ [] []) [])
    as [s' Hs'].
  { intros k Hk Hnone. unfold vars in Hk. rewrite map_map in Hk.
    apply in_map_iff in Hk as [a [Ha _]]. simpl in Ha. subst k.
    rewrite slot_of_name_name in Hnone. discriminate. }
  unfold from_dict. rewrite Hs'. do 2 f_equal.
  apply section_by_slots. intro a.
  assert (Hnd : NoDup (map fst (vars s))).
  { unfold vars. rewrite map_map. simpl.
    repeat constructor; simpl; intuition discriminate. }
  rewrite (from_dict_loop_slots _ _ _ _ _ _ _ Hnd Hs' a).
  destruct a; reflexivity.
Qed.


(** * [Blade.n_aero] and [Blade.aerodata] *)

(** [self.sections]: the Sections of a blade by radial position, as the
    items of the dictionary in insertion order; its keys are distinct. *)
Definition sections_dict : Type := list (R * SectionObj).

(** [self.sections[key]]; [None] stands for [KeyError]. *)
Fixpoint sections_get (key : R) (d : sections_dict) : option SectionObj :=
  match d with
  | [] => None
  | (k, sec) :: d' => if Req_dec_T key k then Some sec else sections_get key d'
  end.

(** [len(self.sections)] *)
Definition n_aero (d : sections_dict) : nat := List.length d.

(** [sorted(self.sections.keys())]: a stable sort, as [argsort_stable]. *)
Definition sorted_keys (d : sections_dict) : list R :=
  map fst (argsort_stable (map fst d)).

Fixpoint map_option {A B : Type} (g : A -> option B) (l : list A) : option (list B) :=
  match l with
  | [] => Some []
  | x :: l' =>
      match g x with
      | Some y => match map_option g l' with
                  | Some ys => Some (y :: ys)
                  | None => None
                  end
      | None => None
      end
  end.

Section Aerodata.

(** Storing a value in an array of [dtype=c_float] rounds it to single
    precision. *)
Variable c_float : R -> R.

(** The fourteen entries [data[0][i]], ..., [data[13][i]] written for one
    key. *)
Definition aerodata_column (key : R) (sec : SectionObj) : list R :=
  map c_float
    [key; a_0 sec; Cl_max sec; Cl_min sec; dClda sec; dClda_stall sec; dCl_stall sec;
     Cd_min sec; Cl_Cd_min sec; dCddCl2 sec; Cm_const sec; M_crit sec; Re sec; Re_exp sec].

(** [Blade.aerodata]: an array of shape [(14, n_aero)], zero where the
    loop writes nothing. *)
Definition aerodata (d : sections_dict) : option ndarray :=
  match map_option (fun key => match sections_get key d with
                               | Some sec => Some (aerodata_column key sec)
                               | None => None
                               end) (sorted_keys d) with
  | Some columns =>
      Some (mkArray (n_aero d)
              (map (fun r => map (fun i => nth r (nth i columns []) 0) (seq 0 (n_aero d)))
                   (seq 0 14)))
  | None => None
  end.

End Aerodata.

(** A dictionary of two Sections, inserted tip first. *)
Definition sample_sections : sections_dict :=
  [(0.9, unstalled_section); (0.3, sample_section)].

(** A conversion that stores every value exactly. *)
Definition no_rounding (x : R) : R := x.

(** ** Sorting the keys *)

Lemma insert_sorted_permutation p l : Permutation (insert_sorted p l) (p :: l).
Proof.
  induction l as [ | q l IH ]; simpl; [ apply Permutation_refl | ].
  destruct (Rle_dec (fst p) (fst q)); [ apply Permutation_refl | ].
  eapply perm_trans; [ apply perm_skip, IH | apply perm_swap ].
Qed.

Lemma sort_pairs_permutation ps : Permutation (fold_right insert_sorted [] ps) ps.
Proof.
  induction ps as [ | p ps IH ]; simpl; [ constructor | ].
  eapply perm_trans; [ apply insert_sorted_permutation | now apply perm_skip ].
Qed.

Lemma map_fst_enumerate_from k l : map fst (enumerate_from k l) = l.
Proof. revert k. induction l as [ | x l IH ]; intro k; simpl; [ | rewrite IH ]; reflexivity. Qed.

Lemma sorted_values_permutation l : Permutation (map fst (argsort_stable l)) l.
Proof.
  unfold argsort_stable.
  rewrite <- (map_fst_enumerate_from 0 l) at 2.
  apply Permutation_map, sort_pairs_permutation.
Qed.

Lemma strictly_sorted_values (l : list (R * nat)) :
  StronglySorted before l -> NoDup (map fst l) -> StronglySorted Rlt (map fst l).
Proof.
  induction 1 as [ | p l Hs IH Hall ]; intro Hnd; simpl; [ constructor | ].
  inversion Hnd as [ | ? ? Hp Hnd' ]; subst.
  constructor; [ now apply IH | ].
  rewrite Forall_map. rewrite Forall_forall in *. intros q Hq.
  destruct (Hall q Hq) as [ Hlt | [Heq _] ]; [ exact Hlt | ].
  elim Hp. rewrite Heq. now apply in_map.
Qed.

Lemma sorted_keys_permutation d : Permutation (sorted_keys d) (map fst d).
Proof. apply sorted_values_permutation. Qed.

Lemma sorted_keys_increasing d :
  NoDup (map fst d) -> StronglySorted Rlt (sorted_keys d).
Proof.
  intro Hnd. unfold sorted_keys. apply strictly_sorted_values.
  - apply sorted_enumerate_from.
  - eapply Permutation_NoDup;
      [ apply Permutation_sym, sorted_values_permutation | exact Hnd ].
Qed.

Lemma sorted_keys_length d : List.length (sorted_keys d) = n_aero d.
Proof.
  unfold n_aero. rewrite (Permutation_length (sorted_keys_permutation d)).
  apply length_map.
Qed.

Lemma strictly_sorted_unique (l l' : list R) :
  StronglySorted Rlt l -> StronglySorted Rlt l' -> Permutation l l' -> l = l'.
Proof.
  intro Hs. revert l'. induction Hs as [ | a l Hs IH Ha ]; intros l' Hs' Hp.
  - now apply Permutation_nil in Hp.
  - destruct Hs' as [ | b l' Hs' Hb ].
    + apply Permutation_sym, Permutation_nil in Hp. discriminate.
    + rewrite Forall_forall in Ha, Hb.
      assert (Hab : a = b).
      { pose proof (Permutation_in a Hp (or_introl eq_refl)) as [ Heq | Hin ];
          [ now symmetry | ].
        pose proof (Permutation_in b (Permutation_sym Hp) (or_introl eq_refl))
          as [ Heq | Hin' ]; [ exact Heq | ].
        pose proof (Hb a Hin). pose proof (Ha b Hin'). lra. }
      subst b. f_equal. apply IH; [ exact Hs' | ].
      eapply Permutation_cons_inv, Hp.
Qed.

(** ** Looking the keys up *)

Lemma sections_get_in key sec d : sections_get key d = Some sec -> In (key, sec) d.
Proof.
  induction d as [ | [k s0] d IH ]; simpl; [ discriminate | ].
  destruct (Req_dec_T key k) as [ -> | _ ].
  - intro H. injection H as ->. now left.
  - intro H. right. now apply IH.
Qed.

Lemma in_sections_get key sec d :
  NoDup (map fst d) -> In (key, sec) d -> sections_get key d = Some sec.
Proof.
  induction d as [ | [k s0] d IH ]; simpl; intros Hnd Hin; [ contradiction | ].
  inversion Hnd as [ | ? ? Hk Hnd' ]; subst.
  destruct Hin as [ Heq | Hin ].
  - injection Heq as -> ->. destruct (Req_dec_T key key) as [ _ | Hn ];
      [ reflexivity | now elim Hn ].
  - destruct (Req_dec_T key k) as [ -> | _ ]; [ | now apply IH ].
    elim Hk. apply in_map_iff. exists (k, sec). auto.
Qed.

Lemma sections_get_key key d :
  In key (map fst d) -> exists sec, sections_get key d = Some sec.
Proof.
  induction d as [ | [k s0] d IH ]; simpl; [ contradiction | ].
  intros [ <- | Hin ].
  - destruct (Req_dec_T k k) as [ _ | Hn ]; [ now exists s0 | now elim Hn ].
  - destruct (Req_dec_T key k); [ now exists s0 | now apply IH ].
Qed.

Lemma sections_get_permutation key d d' :
  NoDup (map fst d) -> Permutation d d' -> sections_get key d = sections_get key d'.
Proof.
  intros Hnd Hp.
  assert (Hnd' : NoDup (map fst d'))
    by (eapply Permutation_NoDup; [ apply Permutation_map, Hp | exact Hnd ]).
  destruct (sections_get key d) as [ sec | ] eqn:Hd.
  - symmetry. apply in_sections_get; [ exact Hnd' | ].
    eapply Permutation_in; [ exact Hp | now apply sections_get_in ].
  - destruct (sections_get key d') as [ sec | ] eqn:Hd'; [ | reflexivity ].
    apply sections_get_in in Hd'. apply (Permutation_in _ (Permutation_sym Hp)) in Hd'.
    apply (in_sections_get _ _ _ Hnd) in Hd'. congruence.
Qed.

Lemma map_option_ext {A B : Type} (g h : A -> option B) l :
  (forall x, g x = h x) -> map_option g l = map_option h l.
Proof.
  intro Hgh. induction l as [ | x l IH ]; simpl; [ reflexivity | ].
  now rewrite Hgh, IH.
Qed.

Lemma map_option_some {A B : Type} (g : A -> option B) l :
  (forall x, In x l -> exists y, g x = Some y) ->
  exists ys, map_option g l = Some ys /\ Forall2 (fun x y => g x = Some y) l ys.
Proof.
  induction l as [ | x l IH ]; intro Hg; simpl.
  - exists []. split; [ reflexivity | constructor ].
  - destruct (Hg x (or_introl eq_refl)) as [y Hy].
    destruct IH as [ys [Hys Hall]]; [ intros x' Hx'; apply Hg; now right | ].
    exists (y :: ys). rewrite Hy, Hys. split; [ reflexivity | now constructor ].
Qed.

Lemma nth_map_seq {B : Type} (h : nat -> B) n i dflt :
  (i < n)%nat -> nth i (map h (seq 0 n)) dflt = h i.
Proof.
  intro Hi. rewrite (nth_indep _ dflt (h 0%nat)) by (now rewrite length_map, length_seq).
  rewrite map_nth, seq_nth by exact Hi. reflexivity.
Qed.

Lemma map_nth_seq {B : Type} (h : list R -> B) (l : list (list R)) :
  map (fun i => h (nth i l [])) (seq 0 (List.length l)) = map h l.
Proof.
  induction l as [ | a l IH ]; [ reflexivity | ].
  cbn [List.length seq map nth]. f_equal.
  rewrite <- seq_shift, map_map. exact IH.
Qed.

Lemma Forall2_nth_error {A B : Type} (P : A -> B -> Prop) l ys i x :
  Forall2 P l ys -> nth_error l i = Some x ->
  exists y, nth_error ys i = Some y /\ P x y.
Proof.
  intro H. revert i. induction H as [ | a b l ys Hab _ IH ]; intros i Hi.
  - destruct i; discriminate.
  - destruct i as [ | i ]; simpl in *.
    + injection Hi as ->. now exists b.
    + now apply IH.
Qed.

Lemma monotone_image_sorted (c : R -> R) l :
  (forall x y, x <= y -> c x <= c y) ->
  StronglySorted Rlt l -> StronglySorted Rle (map c l).
Proof.
  intros Hc. induction 1 as [ | a l Hs IH Ha ]; simpl; constructor; [ exact IH | ].
  rewrite Forall_map. eapply Forall_impl; [ | exact Ha ].
  intros x Hx. apply Hc. lra.
Qed.

Section AerodataFacts.

Variable c_float : R -> R.

Lemma aerodata_columns d :
  exists columns,
    map_option (fun key => match sections_get key d with
                           | Some sec => Some (aerodata_column c_float key sec)
                           | None => None
                           end) (sorted_keys d) = Some columns /\
    Forall2 (fun key col => exists sec, sections_get key d = Some sec /\
                                        col = aerodata_column c_float key sec)
            (sorted_keys d) columns.
Proof.
  destruct (map_option_some
              (fun key => match sections_get key d with
                          | Some sec => Some (aerodata_column c_float key sec)
                          | None => None
                          end) (sorted_keys d)) as [columns [Hcols Hall]].
  - intros key Hkey.
    apply (Permutation_in _ (sorted_keys_permutation d)) in Hkey.
    destruct (sections_get_key key d Hkey) as [sec ->]. eexists. reflexivity.
  - exists columns. split; [ exact Hcols | ].
    eapply Forall2_impl; [ | exact Hall ]. intros key col Hcol. cbv beta in Hcol.
    destruct (sections_get key d) as [ sec | ]; [ | discriminate ].
    exists sec. split; [ reflexivity | congruence ].
Qed.

Lemma columns_first_entries d columns :
  Forall2 (fun key col => exists sec, sections_get key d = Some sec /\
                                      col = aerodata_column c_float key sec)
          (sorted_keys d) columns ->
  map (fun col => nth 0 col 0) columns = map c_float (sorted_keys d).
Proof.
  induction 1 as [ | key col keys cols [sec [_ ->]] _ IH ]; simpl; [ reflexivity | ].
  now rewrite IH.
Qed.

(** X16: [Blade.aerodata] never fails: for every dictionary of Sections
    it returns an array of shape [(14, n_aero)], fourteen rows of
    [n_aero] entries each. *)
Theorem aerodata_shape (d : sections_dict) :
  exists data,
    aerodata c_float d = Some data /\
    ncols data = n_aero d /\
    List.length (rows data) = 14%nat /\
    well_formed data.
Proof.
  destruct (aerodata_columns d) as [columns [Hcols _]].
  unfold aerodata. rewrite Hcols. eexists. split; [ reflexivity | ].
  split; [ reflexivity | ]. split; [ reflexivity | ].
  unfold well_formed. cbn [rows ncols]. apply Forall_forall. intros row Hrow.
  apply in_map_iff in Hrow as [r [<- _]]. now rewrite length_map, length_seq.
Qed.

(** X17: for a dictionary of Sections (its keys are distinct),
    [Blade.aerodata] lists the Sections by increasing radial position:
    row 0 holds the keys in strictly increasing order (each converted to
    [c_float], so in non-decreasing order when the conversion is
    monotone), and for every item [(key, sec)] of the dictionary there is
    a column that holds, from row 0 to row 13, [key], [a_0], [Cl_max],
    [Cl_min], [dClda], [dClda_stall], [dCl_stall], [Cd_min], [Cl_Cd_min],
    [dCddCl2], [Cm_const], [M_crit], [Re], [Re_exp] of [sec]. *)
Theorem aerodata_lists_sections_by_position (d : sections_dict) :
  NoDup (map fst d) ->
  exists data,
    aerodata c_float d = Some data /\
    StronglySorted Rlt (sorted_keys d) /\
    Permutation (sorted_keys d) (map fst d) /\
    nth 0 (rows data) [] = map c_float (sorted_keys d) /\
    ((forall x y, x <= y -> c_float x <= c_float y) ->
     StronglySorted Rle (nth 0 (rows data) [])) /\
    (forall key sec,
        In (key, sec) d ->
        exists i,
          (i < n_aero d)%nat /\
          nth_error (sorted_keys d) i = Some key /\
          column_values data i =
            map c_float
              [key; a_0 sec; Cl_max sec; Cl_min sec; dClda sec; dClda_stall sec;
               dCl_stall sec; Cd_min sec; Cl_Cd_min sec; dCddCl2 sec; Cm_const sec;
               M_crit sec; Re sec; Re_exp sec]).
Proof.
  intro Hnd. destruct (aerodata_columns d) as [columns [Hcols Hall]].
  assert (Hlen : List.length columns = n_aero d).
  { rewrite <- (Forall2_length Hall). apply sorted_keys_length. }
  unfold aerodata. rewrite Hcols. eexists. split; [ reflexivity | ].
  pose proof (sorted_keys_increasing d Hnd) as Hsorted.
  split; [ exact Hsorted | ]. split; [ apply sorted_keys_permutation | ].
  assert (Hrow0 : nth 0 (rows (mkArray (n_aero d)
                    (map (fun r => map (fun i => nth r (nth i columns []) 0)
                                       (seq 0 (n_aero d))) (seq 0 14)))) [] =
                  map c_float (sorted_keys d)).
  { cbn [rows seq map nth]. rewrite <- Hlen.
    rewrite (map_nth_seq (fun col => nth 0 col 0) columns).
    now apply columns_first_entries. }
  split; [ exact Hrow0 | ]. split.
  - intro Hmono. rewrite Hrow0. now apply monotone_image_sorted.
  - intros key sec Hin.
    assert (Hkey : In key (sorted_keys d)).
    { apply (Permutation_in _ (Permutation_sym (sorted_keys_permutation d))).
      apply in_map_iff. exists (key, sec). auto. }
    apply In_nth_error in Hkey as [i Hi]. exists i.
    assert (Hlt : (i < n_aero d)%nat).
    { rewrite <- sorted_keys_length. apply nth_error_Some. congruence. }
    split; [ exact Hlt | ]. split; [ exact Hi | ].
    destruct (Forall2_nth_error _ _ _ _ _ Hall Hi) as [col [Hcol [sec' [Hget ->]]]].
    rewrite (in_sections_get _ _ _ Hnd Hin) in Hget. injection Hget as <-.
    unfold column_values. cbn [rows]. rewrite map_map.
    rewrite (map_ext _ (fun r => nth r (nth i columns []) 0))
      by (intro r;
          exact (nth_map_seq (fun i' => nth r (nth i' columns []) 0) (n_aero d) i 0 Hlt)).
    rewrite (nth_error_nth _ _ [] Hcol). reflexivity.
Qed.

(** X18: [Blade.aerodata] does not depend on the order in which the
    Sections were inserted into the dictionary. *)
Theorem aerodata_ignores_insertion_order (d d' : sections_dict) :
  NoDup (map fst d) -> Permutation d d' ->
  aerodata c_float d = aerodata c_float d'.
Proof.
  intros Hnd Hp.
  assert (Hnd' : NoDup (map fst d'))
    by (eapply Permutation_NoDup; [ apply Permutation_map, Hp | exact Hnd ]).
  assert (Hkeys : sorted_keys d = sorted_keys d').
  { apply strictly_sorted_unique; try now apply sorted_keys_increasing.
    eapply perm_trans; [ apply sorted_keys_permutation | ].
    eapply perm_trans; [ apply Permutation_map, Hp | ].
    apply Permutation_sym, sorted_keys_permutation. }
  unfold aerodata, n_aero. rewrite Hkeys, (Permutation_length Hp).
  rewrite (map_option_ext _
             (fun key => match sections_get key d' with
                         | Some sec => Some (aerodata_column c_float key sec)
                         | None => None
                         end));
    [ reflexivity | ].
  intro key. now rewrite (sections_get_permutation key d d' Hnd Hp).
Qed.

End AerodataFacts.

Lemma NoDup_sample_sections : NoDup (map fst sample_sections).
Proof.
  simpl. constructor; [ | constructor; [ intros [] | constructor ] ].
  intros [ H | [] ]. lra.
Qed.

Lemma aerodata_lists_sections_by_position_witness :
  exists data,
    aerodata no_rounding sample_sections = Some data /\
    nth 0 (rows data) [] = map no_rounding (sorted_keys sample_sections).
Proof.
  destruct (aerodata_lists_sections_by_position no_rounding sample_sections
              NoDup_sample_sections) as (data & Hdata & _ & _ & Hrow & _).
  exists data. split; [ exact Hdata | exact Hrow ].
Defined.

Lemma aerodata_ignores_insertion_order_witness :
  aerodata no_rounding sample_sections = aerodata no_rounding (rev sample_sections).
Proof.
  apply aerodata_ignores_insertion_order.
  - exact NoDup_sample_sections.
  - apply Permutation_rev.
Defined.


(** * class Geometry *)

(** [a.resize((4, m))] on an array of four rows: NumPy keeps the data in
    storage order, cuts it or pads it with zeros to [4 * m] entries, and
    reads the rows off again. *)
Definition flatten (a : ndarray) : list R := concat (rows a).

Definition resized_data (a : ndarray) (m : nat) : list R :=
  firstn (4 * m) (flatten a ++ repeat 0 (4 * m)).

Definition resize (a : ndarray) (m : nat) : ndarray :=
  mkArray m (map (fun r => firstn m (skipn (r * m) (resized_data a m))) (seq 0 4)).

(** [l[k] = x] for an index inside the list. *)
Fixpoint set_nth {A : Type} (k : nat) (x : A) (l : list A) : list A :=
  match l, k with
  | [], _ => []
  | _ :: l', O => x :: l'
  | y :: l', S k' => y :: set_nth k' x l'
  end.

(** The attributes of a [Geometry] object. *)
Record GeometryObj : Type := mkGeometry {
  r_hub : R;
  r_tip : R;
  r_wake : R;
  rake : R;
  geomdata : ndarray
}.

(** [Geometry.__init__]: [geomdata = np.zeros((4, 0), dtype=c_float)]. *)
Definition Geometry_init : GeometryObj :=
  mkGeometry 0 1 0 0 (mkArray 0 [[]; []; []; []]).

(** The getters: [n_geom] is [geomdata.shape[1]]; [radii], [chord],
    [twist] and [ubody] are the rows 0 to 3, [geomdata[k, :]]. *)
Definition n_geom (g : GeometryObj) : nat := ncols (geomdata g).

Definition geom_row (k : nat) (g : GeometryObj) : list R := nth k (rows (geomdata g)) [].

Definition radii : GeometryObj -> list R := geom_row 0.
Definition chord : GeometryObj -> list R := geom_row 1.
Definition twist : GeometryObj -> list R := geom_row 2.
Definition ubody : GeometryObj -> list R := geom_row 3.

Definition with_geomdata (g : GeometryObj) (a : ndarray) : GeometryObj :=
  mkGeometry (r_hub g) (r_tip g) (r_wake g) (rake g) a.

Section GeometrySetters.

Variable c_float : R -> R.

(** [self.geomdata.resize((4, m))].  When the number of entries changes
    ([4 * m] is not the number of entries held), NumPy refuses to resize
    an array that another array references (a view handed out by a
    getter and still alive): [referenced] tells whether there is one at
    the time of the call. *)
Definition geomdata_resize (referenced : bool) (m : nat) (g : GeometryObj)
  : result GeometryObj :=
  if (4 * m =? List.length (flatten (geomdata g)))%nat
  then Ok (with_geomdata g (resize (geomdata g) m))
  else if referenced then Raise ValueError
  else Ok (with_geomdata g (resize (geomdata g) m)).

(** The setter of [n_geom]; a negative number of columns is refused. *)
Definition set_n_geom (referenced : bool) (n : Z) (g : GeometryObj) : result GeometryObj :=
  if (n <? 0)%Z then Raise ValueError else geomdata_resize referenced (Z.to_nat n) g.

(** The setters of [radii] (k = 0), [chord] (1), [twist] (2) and [ubody]
    (3) for a one-dimensional array [arr]:
    [if arr.size != self.geomdata.shape[1]: self.geomdata.resize((4, arr.size))]
    [self.geomdata[k, :] = arr[:]] *)
Definition set_geom_row (k : nat) (referenced : bool) (arr : list R) (g : GeometryObj)
  : result GeometryObj :=
  rbind (if negb (List.length arr =? n_geom g)%nat
         then geomdata_resize referenced (List.length arr) g
         else Ok g)
        (fun g' =>
           Ok (with_geomdata g'
                 (mkArray (n_geom g') (set_nth k (map c_float arr) (rows (geomdata g')))))).

Definition set_radii := set_geom_row 0.
Definition set_chord := set_geom_row 1.
Definition set_twist := set_geom_row 2.
Definition set_ubody := set_geom_row 3.

End GeometrySetters.

(** A [geomdata] array as the class keeps it: four rows of [n_geom]
    entries. *)
Definition four_rows (g : GeometryObj) : Prop :=
  List.length (rows (geomdata g)) = 4%nat /\ well_formed (geomdata g).

(** A geometry with two stations. *)
Definition sample_geometry : GeometryObj :=
  mkGeometry 0.1 1 0 0 (mkArray 2 [[0.2; 1]; [0.12; 0.05]; [40; 15]; [0; 0]]).

From Stdlib Require Import ZArith.

(** ** Lists: exact prefixes and updates at an index *)

Lemma firstn_exact {A : Type} (l1 l2 : list A) n :
  List.length l1 = n -> firstn n (l1 ++ l2) = l1.
Proof.
  intros <-. rewrite firstn_app, firstn_all, Nat.sub_diag. simpl. apply app_nil_r.
Qed.

Lemma skipn_exact {A : Type} (l1 l2 : list A) n :
  List.length l1 = n -> skipn n (l1 ++ l2) = l2.
Proof.
  intros <-. rewrite skipn_app, skipn_all, Nat.sub_diag. reflexivity.
Qed.

Lemma set_nth_length {A : Type} k (x : A) l : List.length (set_nth k x l) = List.length l.
Proof.
  revert k. induction l as [ | y l IH ]; intros [ | k ]; simpl; try reflexivity.
  now rewrite IH.
Qed.

Lemma nth_set_nth_same {A : Type} k (x d : A) l :
  (k < List.length l)%nat -> nth k (set_nth k x l) d = x.
Proof.
  revert k. induction l as [ | y l IH ]; intros [ | k ] Hk; simpl in *; try lia.
  - reflexivity.
  - apply IH. lia.
Qed.

Lemma nth_set_nth_other {A : Type} j k (x d : A) l :
  j <> k -> nth j (set_nth k x l) d = nth j l d.
Proof.
  revert j k. induction l as [ | y l IH ]; intros [ | j ] [ | k ] Hjk; simpl;
    try reflexivity; try congruence.
  apply IH. congruence.
Qed.

Lemma Forall_set_nth {A : Type} (P : A -> Prop) k x l :
  Forall P l -> P x -> Forall P (set_nth k x l).
Proof.
  intros Hl Hx. revert k. induction Hl as [ | y l Hy Hl IH ]; intros [ | k ]; simpl;
    constructor; auto.
Qed.

(** ** Resizing [geomdata] *)

Lemma four_rows_inv g :
  four_rows g ->
  exists r0 r1 r2 r3,
    rows (geomdata g) = [r0; r1; r2; r3] /\
    List.length r0 = n_geom g /\ List.length r1 = n_geom g /\
    List.length r2 = n_geom g /\ List.length r3 = n_geom g.
Proof.
  intros [Hlen Hwf]. unfold well_formed, n_geom in *.
  destruct (rows (geomdata g)) as [ | r0 [ | r1 [ | r2 [ | r3 [ | r4 l ] ] ] ] ];
    try discriminate.
  exists r0, r1, r2, r3. split; [ reflexivity | ].
  inversion Hwf as [ | ? ? H0 Hwf1 ]; subst. inversion Hwf1 as [ | ? ? H1 Hwf2 ]; subst.
  inversion Hwf2 as [ | ? ? H2 Hwf3 ]; subst. inversion Hwf3 as [ | ? ? H3 _ ]; subst.
  auto.
Qed.

Lemma flatten_four_rows g :
  four_rows g -> List.length (flatten (geomdata g)) = (4 * n_geom g)%nat.
Proof.
  intro Hg. destruct (four_rows_inv g Hg) as (r0 & r1 & r2 & r3 & Hrows & H0 & H1 & H2 & H3).
  unfold flatten. rewrite Hrows. cbn [concat]. rewrite !length_app. simpl. lia.
Qed.

Lemma resized_data_length a m : List.length (resized_data a m) = (4 * m)%nat.
Proof.
  unfold resized_data. rewrite length_firstn, length_app, repeat_length. lia.
Qed.

Lemma resize_four_rows g m : four_rows (with_geomdata g (resize (geomdata g) m)).
Proof.
  split; [ reflexivity | ].
  unfold well_formed. cbn [with_geomdata geomdata resize rows ncols seq map].
  pose proof (resized_data_length (geomdata g) m) as Hd.
  repeat constructor; rewrite length_firstn, length_skipn, Hd; lia.
Qed.

Lemma resize_same g : four_rows g -> resize (geomdata g) (n_geom g) = geomdata g.
Proof.
  intro Hg. destruct (four_rows_inv g Hg) as (r0 & r1 & r2 & r3 & Hrows & H0 & H1 & H2 & H3).
  unfold n_geom in *. destruct (geomdata g) as [n rws]. cbn [ncols rows] in *. subst rws.
  unfold resize. f_equal.
  assert (Hdata : resized_data (mkArray n [r0; r1; r2; r3]) n = r0 ++ r1 ++ r2 ++ r3).
  { unfold resized_data, flatten. cbn [rows concat]. rewrite app_nil_r.
    apply firstn_exact. rewrite !length_app. lia. }
  rewrite Hdata. cbn [seq map].
  replace (0 * n)%nat with 0%nat by lia. replace (1 * n)%nat with n by lia.
  replace (2 * n)%nat with (List.length (r0 ++ r1)) by (rewrite length_app; lia).
  replace (3 * n)%nat with (List.length (r0 ++ r1 ++ r2)) by (rewrite !length_app; lia).
  cbn [skipn].
  rewrite (firstn_exact r0 _ n H0).
  rewrite (skipn_exact r0 _ n H0), (firstn_exact r1 _ n H1).
  rewrite (app_assoc r0 r1 (r2 ++ r3)) at 1.
  rewrite (skipn_exact (r0 ++ r1) _ _ eq_refl), (firstn_exact r2 _ n H2).
  replace (r0 ++ r1 ++ r2 ++ r3) with ((r0 ++ r1 ++ r2) ++ r3)
    by (now rewrite <- !app_assoc).
  rewrite (skipn_exact (r0 ++ r1 ++ r2) _ _ eq_refl).
  rewrite <- (app_nil_r r3) at 1. rewrite (firstn_exact r3 [] n H3). reflexivity.
Qed.

Section GeometryFacts.

Variable c_float : R -> R.

Lemma assign_row_facts k arr g :
  four_rows g -> (k < 4)%nat -> List.length arr = n_geom g ->
  let g' := with_geomdata g
              (mkArray (n_geom g) (set_nth k (map c_float arr) (rows (geomdata g)))) in
  geom_row k g' = map c_float arr /\
  n_geom g' = List.length arr /\
  four_rows g' /\
  (forall j, j <> k -> geom_row j g' = geom_row j g).
Proof.
  intros [Hlen Hwf] Hk Harr g'. unfold g', geom_row, n_geom, four_rows, well_formed in *.
  cbn [with_geomdata geomdata rows ncols].
  split; [ apply nth_set_nth_same; lia | ].
  split; [ now symmetry | ].
  split; [ split; [ now rewrite set_nth_length | ] | ].
  - apply Forall_set_nth; [ exact Hwf | now rewrite length_map ].
  - intros j Hj. now apply nth_set_nth_other.
Qed.

Lemma set_geom_row_same_length k referenced arr g :
  List.length arr = n_geom g ->
  set_geom_row c_float k referenced arr g =
    Ok (with_geomdata g
          (mkArray (n_geom g) (set_nth k (map c_float arr) (rows (geomdata g))))).
Proof.
  intro Harr. unfold set_geom_row. apply Nat.eqb_eq in Harr. rewrite Harr. reflexivity.
Qed.

Lemma set_geom_row_resizing k arr g :
  List.length arr <> n_geom g ->
  set_geom_row c_float k false arr g =
    Ok (with_geomdata g
          (mkArray (List.length arr)
             (set_nth k (map c_float arr)
                (rows (resize (geomdata g) (List.length arr)))))).
Proof.
  intro Harr. unfold set_geom_row, geomdata_resize.
  apply Nat.eqb_neq in Harr. rewrite Harr. cbn [negb].
  now destruct (4 * List.length arr =? List.length (flatten (geomdata g)))%nat.
Qed.

(** X19: a setter followed by its getter returns what was set: on a
    geometry whose [geomdata] has four rows of [n_geom] entries, when no
    other array references [geomdata] or the new array has [n_geom]
    entries, setting [radii], [chord], [twist] or [ubody] (k = 0..3)
    returns, the getter then yields the array converted to [c_float],
    [n_geom] is the length of the array, [geomdata] again has four rows
    of [n_geom] entries, and [r_hub], [r_tip], [r_wake] and [rake] are
    unchanged. *)
Theorem geometry_set_then_get (k : nat) (referenced : bool) (arr : list R) (g : GeometryObj) :
  four_rows g -> (k < 4)%nat ->
  referenced = false \/ List.length arr = n_geom g ->
  exists g',
    set_geom_row c_float k referenced arr g = Ok g' /\
    geom_row k g' = map c_float arr /\
    n_geom g' = List.length arr /\
    four_rows g' /\
    r_hub g' = r_hub g /\ r_tip g' = r_tip g /\ r_wake g' = r_wake g /\ rake g' = rake g.
Proof.
  intros Hg Hk Href.
  destruct (Nat.eq_dec (List.length arr) (n_geom g)) as [ Heq | Hne ].
  - rewrite (set_geom_row_same_length k referenced arr g Heq). eexists.
    split; [ reflexivity | ].
    destruct (assign_row_facts k arr g Hg Hk Heq) as (H1 & H2 & H3 & _).
    repeat split; try assumption; apply H3.
  - destruct Href as [ -> | Heq ]; [ | contradiction ].
    rewrite (set_geom_row_resizing k arr g Hne). eexists. split; [ reflexivity | ].
    pose proof (resize_four_rows g (List.length arr)) as Hg'.
    destruct (assign_row_facts k arr _ Hg' Hk eq_refl) as (H1 & H2 & H3 & _).
    repeat split; try assumption; apply H3.
Qed.

(** X20: a setter called with an array of [n_geom] entries never fails,
    whether or not [geomdata] is referenced, and leaves the three other
    rows as they were. *)
Theorem geometry_setter_keeps_other_rows
    (k : nat) (referenced : bool) (arr : list R) (g : GeometryObj) :
  four_rows g -> (k < 4)%nat -> List.length arr = n_geom g ->
  exists g',
    set_geom_row c_float k referenced arr g = Ok g' /\
    n_geom g' = n_geom g /\
    (forall j, j <> k -> geom_row j g' = geom_row j g).
Proof.
  intros Hg Hk Heq.
  rewrite (set_geom_row_same_length k referenced arr g Heq). eexists.
  split; [ reflexivity | ].
  destruct (assign_row_facts k arr g Hg Hk Heq) as (_ & _ & _ & H4).
  split; [ reflexivity | exact H4 ].
Qed.

Lemma set_n_geom_nat referenced m g :
  set_n_geom referenced (Z.of_nat m) g = geomdata_resize referenced m g.
Proof.
  unfold set_n_geom. rewrite Nat2Z.id.
  assert (H : (Z.of_nat m <? 0)%Z = false) by (apply Z.ltb_ge; lia).
  now rewrite H.
Qed.

(** X22: the setter of [n_geom] works on the stored sequence of entries,
    not on the rows.  Setting [n_geom] to its current value changes
    nothing; setting it to a smaller [m] (with no other reference to
    [geomdata]) leaves in [radii] the first [m] of the old radii, and,
    when [0 < m < n_geom], puts the old [radii[m]] at the head of
    [chord]. *)
Theorem n_geom_setter_keeps_storage_order (referenced : bool) (m : nat) (g : GeometryObj) :
  four_rows g ->
  (exists g', set_n_geom referenced (Z.of_nat (n_geom g)) g = Ok g' /\
              geomdata g' = geomdata g) /\
  ((m <= n_geom g)%nat ->
   exists g',
     set_n_geom false (Z.of_nat m) g = Ok g' /\
     n_geom g' = m /\
     radii g' = firstn m (radii g) /\
     ((0 < m < n_geom g)%nat -> nth 0 (chord g') 0 = nth m (radii g) 0)).
Proof.
  intro Hg. split.
  - rewrite set_n_geom_nat. unfold geomdata_resize.
    rewrite (flatten_four_rows g Hg), Nat.eqb_refl.
    eexists. split; [ reflexivity | ]. cbn [with_geomdata geomdata].
    now apply resize_same.
  - intro Hm. rewrite set_n_geom_nat.
    exists (with_geomdata g (resize (geomdata g) m)). split.
    { unfold geomdata_resize.
      now destruct (4 * m =? List.length (flatten (geomdata g)))%nat. }
    split; [ reflexivity | ].
    destruct (four_rows_inv g Hg) as (r0 & r1 & r2 & r3 & Hrows & H0 & H1 & H2 & H3).
    unfold radii, chord, geom_row. cbn [with_geomdata geomdata resize rows seq map nth].
    rewrite Hrows. cbn [nth].
    assert (Hdata : resized_data (geomdata g) m =
                    firstn (4 * m) ((r0 ++ r1 ++ r2 ++ r3) ++ repeat 0 (4 * m))).
    { unfold resized_data, flatten. rewrite Hrows. cbn [concat]. now rewrite app_nil_r. }
    rewrite Hdata. split.
    + replace (0 * m)%nat with 0%nat by lia. cbn [skipn].
      rewrite firstn_firstn. replace (Nat.min m (4 * m)) with m by lia.
      rewrite <- !app_assoc, firstn_app.
      replace (m - List.length r0)%nat with 0%nat by lia.
      cbn [firstn]. apply app_nil_r.
    + intros [Hm0 Hmn].
      rewrite nth_firstn. assert (H0m : (0 <? m)%nat = true) by (apply Nat.ltb_lt; lia).
      rewrite H0m, nth_skipn, nth_firstn.
      assert (Hm4 : (1 * m + 0 <? 4 * m)%nat = true) by (apply Nat.ltb_lt; lia).
      rewrite Hm4. replace (1 * m + 0)%nat with m by lia.
      rewrite <- !app_assoc. apply app_nth1. lia.
Qed.

Lemma four_setters_on_matching g r c t u ref0 ref1 ref2 ref3 :
  four_rows g -> List.length r = n_geom g ->
  List.length c = List.length r -> List.length t = List.length r ->
  List.length u = List.length r ->
  exists g1 g2 g3 g4,
    set_radii c_float ref0 r g = Ok g1 /\
    set_chord c_float ref1 c g1 = Ok g2 /\
    set_twist c_float ref2 t g2 = Ok g3 /\
    set_ubody c_float ref3 u g3 = Ok g4 /\
    g4 = with_geomdata g
           (mkArray (List.length r)
              [map c_float r; map c_float c; map c_float t; map c_float u]).
Proof.
  intros Hg Hr Hc Ht Hu.
  destruct (four_rows_inv g Hg) as (r0 & r1 & r2 & r3 & Hrows & _).
  unfold set_radii, set_chord, set_twist, set_ubody.
  set (g1 := with_geomdata g
               (mkArray (n_geom g) (set_nth 0 (map c_float r) (rows (geomdata g))))).
  set (g2 := with_geomdata g1
               (mkArray (n_geom g1) (set_nth 1 (map c_float c) (rows (geomdata g1))))).
  set (g3 := with_geomdata g2
               (mkArray (n_geom g2) (set_nth 2 (map c_float t) (rows (geomdata g2))))).
  set (g4 := with_geomdata g3
               (mkArray (n_geom g3) (set_nth 3 (map c_float u) (rows (geomdata g3))))).
  exists g1, g2, g3, g4.
  split; [ exact (set_geom_row_same_length 0 ref0 r g Hr) | ].
  split; [ apply set_geom_row_same_length; cbn; congruence | ].
  split; [ apply set_geom_row_same_length; cbn; congruence | ].
  split; [ apply set_geom_row_same_length; cbn; congruence | ].
  unfold g4, g3, g2, g1.
  cbn [with_geomdata geomdata rows n_geom ncols r_hub r_tip r_wake rake].
  rewrite Hrows, Hr. reflexivity.
Qed.

(** X23: setting [radii], [chord], [twist] and [ubody] in turn with
    arrays of one length [m] fixes [geomdata] whatever it held before:
    all four calls return (the first one provided no other array
    references [geomdata] when it has to resize), [geomdata] is then the
    four arrays converted to [c_float], and [n_geom] is [m]. *)
Theorem geometry_four_setters (g : GeometryObj) (r c t u : list R) (ref1 ref2 ref3 : bool) :
  four_rows g ->
  List.length c = List.length r -> List.length t = List.length r ->
  List.length u = List.length r ->
  exists g1 g2 g3 g4,
    set_radii c_float false r g = Ok g1 /\
    set_chord c_float ref1 c g1 = Ok g2 /\
    set_twist c_float ref2 t g2 = Ok g3 /\
    set_ubody c_float ref3 u g3 = Ok g4 /\
    geomdata g4 =
      mkArray (List.length r) [map c_float r; map c_float c; map c_float t; map c_float u] /\
    radii g4 = map c_float r /\ chord g4 = map c_float c /\
    twist g4 = map c_float t /\ ubody g4 = map c_float u /\
    n_geom g4 = List.length r.
Proof.
  intros Hg Hc Ht Hu.
  destruct (Nat.eq_dec (List.length r) (n_geom g)) as [ Heq | Hne ].
  - destruct (four_setters_on_matching g r c t u false ref1 ref2 ref3 Hg Heq Hc Ht Hu)
      as (g1 & g2 & g3 & g4 & H1 & H2 & H3 & H4 & Hg4).
    exists g1, g2, g3, g4. repeat (split; [ assumption | ]).
    rewrite Hg4. repeat split.
  - pose proof (resize_four_rows g (List.length r)) as Hg0.
    destruct (four_setters_on_matching _ r c t u false ref1 ref2 ref3 Hg0 eq_refl Hc Ht Hu)
      as (g1 & g2 & g3 & g4 & H1 & H2 & H3 & H4 & Hg4).
    exists g1, g2, g3, g4. split.
    + unfold set_radii in *. rewrite (set_geom_row_resizing 0 r g Hne).
      rewrite set_geom_row_same_length in H1 by reflexivity. exact H1.
    + repeat (split; [ assumption | ]). rewrite Hg4. repeat split.
Qed.

End GeometryFacts.

Lemma four_rows_sample_geometry : four_rows sample_geometry.
Proof. split; [ reflexivity | unfold well_formed; repeat constructor ]. Qed.

Lemma four_rows_Geometry_init : four_rows Geometry_init.
Proof. split; [ reflexivity | unfold well_formed; repeat constructor ]. Qed.

Lemma geometry_set_then_get_witness :
  exists g',
    set_geom_row no_rounding 1 false [0.1; 0.08; 0.04] sample_geometry = Ok g' /\
    geom_row 1 g' = map no_rounding [0.1; 0.08; 0.04] /\
    n_geom g' = 3%nat.
Proof.
  destruct (geometry_set_then_get no_rounding 1 false [0.1; 0.08; 0.04] sample_geometry
              four_rows_sample_geometry ltac:(lia) (or_introl eq_refl))
    as (g' & Hset & Hget & Hn & _).
  exists g'. repeat split; assumption.
Defined.

Lemma geometry_setter_keeps_other_rows_witness :
  exists g',
    set_geom_row no_rounding 1 true [0.1; 0.08] sample_geometry = Ok g' /\
    n_geom g' = n_geom sample_geometry /\
    (forall j, j <> 1%nat -> geom_row j g' = geom_row j sample_geometry).
Proof.
  apply (geometry_setter_keeps_other_rows no_rounding 1 true [0.1; 0.08] sample_geometry
           four_rows_sample_geometry); [ lia | reflexivity ].
Defined.

Lemma n_geom_setter_keeps_storage_order_witness :
  exists g',
    set_n_geom false 1 sample_geometry = Ok g' /\
    n_geom g' = 1%nat /\
    radii g' = firstn 1 (radii sample_geometry) /\
    ((0 < 1 < n_geom sample_geometry)%nat -> nth 0 (chord g') 0 = nth 1 (radii sample_geometry) 0).
Proof.
  destruct (n_geom_setter_keeps_storage_order false 1 sample_geometry
              four_rows_sample_geometry) as [_ Hshrink].
  apply Hshrink. cbn. lia.
Defined.

Lemma geometry_four_setters_witness :
  exists g1 g2 g3 g4,
    set_radii no_rounding false [0.2; 0.6; 1] Geometry_init = Ok g1 /\
    set_chord no_rounding true [0.12; 0.1; 0.05] g1 = Ok g2 /\
    set_twist no_rounding true [40; 25; 15] g2 = Ok g3 /\
    set_ubody no_rounding true [0; 0; 0] g3 = Ok g4 /\
    n_geom g4 = 3%nat.
Proof.
  destruct (geometry_four_setters no_rounding Geometry_init
              [0.2; 0.6; 1] [0.12; 0.1; 0.05] [40; 25; 15] [0; 0; 0] true true true
              four_rows_Geometry_init eq_refl eq_refl eq_refl)
    as (g1 & g2 & g3 & g4 & H1 & H2 & H3 & H4 & _ & _ & _ & _ & _ & Hn).
  exists g1, g2, g3, g4. repeat split; assumption.
Defined.
